(** * izysays: inline markup rewriter, text-node walker and tree decorators

    A shallow embedding of [src/content.js] (and its stand-alone copy
    [core/addTag.js]) together with the properties stated for it in the
    specification.

    JavaScript strings are sequences of UTF-16 code units; a regular
    expression without the [u] flag works on code units, so a string is
    a [list N] here.  ASCII literals are written with [jss]. *)

From Stdlib Require Import List NArith Lia Bool String Ascii Arith.
From stdpp Require Import gmap.
Import ListNotations.

Set Warnings "-register-all".

Local Open Scope N_scope.
Local Open Scope nat_scope.
Local Open Scope list_scope.

(* ------------------------------------------------------------------ *)
(** ** Strings *)

Module JsString.

Definition jss (s : string) : list N :=
  map N_of_ascii (list_ascii_of_string s).

(** The double-quote character, code unit 34. *)
Definition dquote : list N := [34%N].

(** ECMAScript LineTerminator: LF, CR, LS (U+2028), PS (U+2029).  The
    regular-expression atom [.] matches every code unit but these. *)
Definition is_line_terminator (c : N) : bool :=
  (c =? 10)%N || (c =? 13)%N || (c =? 8232)%N || (c =? 8233)%N.

(** ECMAScript WhiteSpace or LineTerminator, the code units removed by
    [String.prototype.trim]. *)
Definition is_trim_space (c : N) : bool :=
  is_line_terminator c
  || (c =? 9)%N || (c =? 11)%N || (c =? 12)%N || (c =? 32)%N
  || (c =? 160)%N || (c =? 5760)%N
  || ((8192 <=? c)%N && (c <=? 8202)%N)
  || (c =? 8239)%N || (c =? 8287)%N || (c =? 12288)%N || (c =? 65279)%N.

(** [s.startsWith(m)] read as "m is a prefix of s". *)
Fixpoint starts_with (m s : list N) : bool :=
  match m, s with
  | [], _ => true
  | _ :: _, [] => false
  | a :: m', b :: s' => (a =? b)%N && starts_with m' s'
  end.

(** [s.endsWith(m)]. *)
Definition ends_with (m s : list N) : bool :=
  starts_with (rev m) (rev s).

(** [s.includes(m)]: [m] occurs somewhere in [s]. *)
Fixpoint includes (m s : list N) : bool :=
  starts_with m s ||
  match s with
  | [] => false
  | _ :: s' => includes m s'
  end.

Definition no_line_terminator (s : list N) : bool :=
  forallb (fun c => negb (is_line_terminator c)) s.

Fixpoint eqb_str (a b : list N) : bool :=
  match a, b with
  | [], [] => true
  | x :: a', y :: b' => (x =? y)%N && eqb_str a' b'
  | _, _ => false
  end.

End JsString.
Export JsString.

(* ------------------------------------------------------------------ *)
(** ** InlineMarkupRewriter: the three [String.prototype.replace] calls *)

Module Rewriter.

(** A rule stands for a pattern [/O(.*?)C/g] with the replacement
    template [T$1U]: literal opener [O], lazily quantified [.]
    captured as group 1, literal closer [C]. *)
Record rule := Rule {
  opener : list N;
  closer : list N;
  tag_open : list N;
  tag_close : list N }.

(** [/==(.*?)==/g] -> ['<mark>$1</mark>'] *)
Definition markRegex : rule :=
  Rule (jss "==") (jss "==") (jss "<mark>") (jss "</mark>").

(** [/\^(.*?)\^/g] -> ['<sup class="suptext">$1</sup>'] *)
Definition superRegex : rule :=
  Rule (jss "^") (jss "^")
       (jss "<sup class=" ++ dquote ++ jss "suptext" ++ dquote ++ jss ">")
       (jss "</sup>").

(** [/\_-(.*?)-\_/g] -> ['<sub class="subtext">$1</sub>'] *)
Definition subRegex : rule :=
  Rule (jss "_-") (jss "-_")
       (jss "<sub class=" ++ dquote ++ jss "subtext" ++ dquote ++ jss ">")
       (jss "</sub>").

(** [(.*?)C] tried at the head of [s]: the lazy quantifier first tries
    to go on with the closer, and only when that fails lets [.] take
    one more code unit, which must not be a line terminator.  The
    result is the capture and the text after the closer. *)
Fixpoint lazy_dot_then (C s : list N) : option (list N * list N) :=
  if starts_with C s then Some ([], skipn (length C) s)
  else
    match s with
    | [] => None
    | c :: s' =>
        if is_line_terminator c then None
        else
          match lazy_dot_then C s' with
          | Some (cap, rest) => Some (c :: cap, rest)
          | None => None
          end
    end.

(** The whole pattern tried at the head of [s]. *)
Definition exec_at (r : rule) (s : list N) : option (list N * list N) :=
  if starts_with (opener r) s
  then lazy_dot_then (closer r) (skipn (length (opener r)) s)
  else None.

(** The pieces a global replace cuts its subject into: code units
    outside every match, and matches (kept as their capture). *)
Inductive piece :=
| Lit (c : N)
| Span (cap : list N).

(** The match loop of a global regular expression: try the pattern at
    the current index; on success record the match and go on after it,
    otherwise step one code unit.  Each round consumes at least one
    code unit, so [length s] rounds are enough. *)
Fixpoint scan_loop (r : rule) (fuel : nat) (s : list N) : list piece :=
  match fuel with
  | O => map Lit s
  | S fuel' =>
      match s with
      | [] => []
      | c :: s' =>
          match exec_at r s with
          | Some (cap, rest) => Span cap :: scan_loop r fuel' rest
          | None => Lit c :: scan_loop r fuel' s'
          end
      end
  end.

Definition scan (r : rule) (s : list N) : list piece :=
  scan_loop r (length s) s.

(** What a piece stood for in the subject, and what it becomes. *)
Definition source (r : rule) (p : piece) : list N :=
  match p with
  | Lit c => [c]
  | Span cap => opener r ++ cap ++ closer r
  end.

Definition render (r : rule) (p : piece) : list N :=
  match p with
  | Lit c => [c]
  | Span cap => tag_open r ++ cap ++ tag_close r
  end.

(** [text.replace(regex, template)] *)
Definition replace_all (r : rule) (s : list N) : list N :=
  flat_map (render r) (scan r s).

Definition addMarkTags (text : list N) : list N := replace_all markRegex text.
Definition addSuperScript (text : list N) : list N := replace_all superRegex text.
Definition addSubScript (text : list N) : list N := replace_all subRegex text.

(** The three rewrites in the order every caller applies them. *)
Definition rewrite_inline (content : list N) : list N :=
  addSubScript (addSuperScript (addMarkTags content)).

End Rewriter.
Export Rewriter.

(* ------------------------------------------------------------------ *)
(** ** TextNodeWalker: [applyTextTransformationsToTextNodes] *)

Module Dom.

(** The part of the DOM the walker looks at.  [tagName] is the
    upper-case name an HTML document reports. *)
Inductive node :=
| Text (data : list N)
| Comment (data : list N)
| Element (tagName : list N) (childNodes : list node).

(** How a JavaScript call ends. *)
Inductive completion :=
| Normal
| Thrown.

(** The [acceptNode] callback; it only ever sees text nodes because
    the walker is created with [NodeFilter.SHOW_TEXT].  [parentTag] is
    [node.parentElement.tagName]. *)
Definition acceptNode (parentTag data : list N) : bool :=
  if forallb is_trim_space data
     || eqb_str parentTag (jss "CODE")
     || eqb_str parentTag (jss "PRE")
  then false   (* FILTER_REJECT *)
  else true.   (* FILTER_ACCEPT *)

(** The [while (node = walker.nextNode())] loop.  A node that
    [whatToShow] hides is skipped, not rejected, so the walker goes
    through every element, whatever its tag, and offers each text node
    below the root to [acceptNode].  The result is [textNodes], in
    document order; a node is stood for by its [textContent]. *)
Fixpoint collect (parentTag : list N) (n : node) : list (list N) :=
  match n with
  | Text d => if acceptNode parentTag d then [d] else []
  | Comment _ => []
  | Element tag cs => flat_map (collect tag) cs
  end.

(** What the loop body does to one collected node. *)
Inductive action :=
| Keep
| Replace (fragment : list node).

Section Walker.

(** [tempDiv.innerHTML = content] followed by moving the children into
    a fragment: the browser's fragment parser, [None] when the setter
    throws. *)
Variable parse_fragment : list N -> option (list node).

(** [textNodes.forEach(...)].  Nothing in the callback catches, so an
    exception raised by the parser ends the iteration there. *)
Fixpoint forEach_textNode (textNodes : list (list N))
  : list action * completion :=
  match textNodes with
  | [] => ([], Normal)
  | originalContent :: rest =>
      let content := rewrite_inline originalContent in
      if eqb_str content originalContent then
        let (acts, c) := forEach_textNode rest in (Keep :: acts, c)
      else
        match parse_fragment content with
        | None => ([], Thrown)
        | Some fragment =>
            let (acts, c) := forEach_textNode rest in
            (Replace fragment :: acts, c)
        end
  end.

(** The tree after the loop: the i-th collected node has received the
    i-th action ([replaceChild] puts the fragment's nodes in its
    place); collected nodes the loop never reached are as they were. *)
Fixpoint commit (parentTag : list N) (acts : list action) (n : node)
  : list node * list action :=
  match n with
  | Text d =>
      if acceptNode parentTag d then
        match acts with
        | Replace fragment :: acts' => (fragment, acts')
        | Keep :: acts' => ([n], acts')
        | [] => ([n], [])
        end
      else ([n], acts)
  | Comment _ => ([n], acts)
  | Element tag cs =>
      let fix commit_children (cs : list node) (acts : list action) :=
        match cs with
        | [] => ([], acts)
        | c :: cs' =>
            let (ns, acts1) := commit tag acts c in
            let (ns', acts2) := commit_children cs' acts1 in
            (ns ++ ns', acts2)
        end in
      let (cs', acts') := commit_children cs acts in
      ([Element tag cs'], acts')
  end.

Definition excluded_root (tagName : list N) : bool :=
  existsb (eqb_str tagName)
          [jss "SCRIPT"; jss "STYLE"; jss "CODE"; jss "PRE"].

(** The function itself.  It returns nothing; what a caller can
    observe is the tree afterwards and whether the call threw. *)
Definition applyTextTransformationsToTextNodes (element : node)
  : node * completion :=
  match element with
  | Element tag cs =>
      if excluded_root tag then (element, Normal)
      else
        let textNodes := flat_map (collect tag) cs in
        let (acts, c) := forEach_textNode textNodes in
        match fst (commit [] acts element) with
        | [element'] => (element', c)
        | _ => (element, c)
        end
  | _ => (element, Normal)
  end.

End Walker.

End Dom.

(* ------------------------------------------------------------------ *)
(** ** TreeDecorators: [rehypeCodeLanguageIcons] and [rehypeAdmonitions] *)

Module Hast.

(** A syntax-tree node as the two plugins read and write it.  A node
    is a JavaScript object; the fields are the ones the plugins touch.
    [name] is the [name] of a directive (a string on every
    [containerDirective], never read on other nodes); [data_value] is
    [node.data?.value]; [children] is empty on a node without a
    [children] field, which [visit] treats the same way.  [className]
    is its own field of [properties] because it holds a list of tokens
    and the other properties the plugins set hold strings. *)
Record properties := Properties {
  className : option (list (list N));
  attrs : gmap (list N) (list N) }.

Inductive node := Node {
  type : list N;
  tagName : option (list N);
  name : list N;
  props : option properties;
  data_value : option (list N);
  value : option (list N);
  children : list node }.

Definition set_children (n : node) (cs : list node) : node :=
  Node (type n) (tagName n) (name n) (props n) (data_value n) (value n) cs.

(** How a plugin run ends: with the tree, with a [TypeError], or, for
    the fuel-driven model of [visit], unfinished. *)
Inductive outcome (A : Type) :=
| Done (a : A)
| TypeError
| Unfinished.
Arguments Done {A} a.
Arguments TypeError {A}.
Arguments Unfinished {A}.

Definition bind {A B} (x : outcome A) (f : A -> outcome B) : outcome B :=
  match x with
  | Done a => f a
  | TypeError => TypeError
  | Unfinished => Unfinished
  end.

Fixpoint mapM {A B} (f : A -> outcome B) (l : list A) : outcome (list B) :=
  match l with
  | [] => Done []
  | x :: l' =>
      bind (f x) (fun y => bind (mapM f l') (fun ys => Done (y :: ys)))
  end.

(** [visit(node, callback)]: the callback changes the node in place,
    then the children the node has after that are visited in order. *)
Fixpoint visit (fuel : nat) (callback : node -> outcome node) (n : node)
  : outcome node :=
  match fuel with
  | O => Unfinished
  | S fuel' =>
      bind (callback n) (fun n' =>
      bind (mapM (visit fuel' callback) (children n')) (fun cs =>
      Done (set_children n' cs)))
  end.

Fixpoint height (n : node) : nat :=
  S (fold_right Nat.max 0 (map height (children n))).

(** [s.split(' ')] *)
Fixpoint split_space (s : list N) : list (list N) :=
  match s with
  | [] => [[]]
  | c :: s' =>
      if (c =? 32)%N then [] :: split_space s'
      else
        match split_space s' with
        | w :: ws => (c :: w) :: ws
        | [] => [[c]]
        end
  end.

(** [s.replace(m, '')] with a string pattern: the first occurrence of
    [m] is removed. *)
Fixpoint remove_first (m s : list N) : list N :=
  if starts_with m s then skipn (length m) s
  else
    match s with
    | [] => []
    | c :: s' => c :: remove_first m s'
    end.

Definition is_type (n : node) (t : string) : bool := eqb_str (type n) (jss t).

Definition is_tag (n : node) (t : string) : bool :=
  match tagName n with
  | Some g => eqb_str g (jss t)
  | None => false
  end.

(** The own properties of the [languageIcons] object literal. *)
Definition languageIcons : list (list N * list N) :=
  map (fun kv => (jss (fst kv), jss (snd kv)))
  [ ("javascript", "fab fa-js-square"); ("js", "fab fa-js-square");
    ("typescript", "fab fa-js-square"); ("ts", "fab fa-js-square");
    ("python", "fab fa-python"); ("py", "fab fa-python");
    ("java", "fab fa-java"); ("php", "fab fa-php");
    ("html", "fab fa-html5"); ("css", "fab fa-css3-alt");
    ("scss", "fab fa-sass"); ("sass", "fab fa-sass");
    ("less", "fab fa-less"); ("react", "fab fa-react");
    ("jsx", "fab fa-react"); ("vue", "fab fa-vuejs");
    ("angular", "fab fa-angular"); ("node", "fab fa-node-js");
    ("nodejs", "fab fa-node-js"); ("npm", "fab fa-npm");
    ("yarn", "fab fa-yarn"); ("docker", "fab fa-docker");
    ("git", "fab fa-git-alt"); ("github", "fab fa-github");
    ("gitlab", "fab fa-gitlab"); ("bitbucket", "fab fa-bitbucket");
    ("go", "fas fa-code"); ("golang", "fas fa-code");
    ("rust", "fas fa-cog"); ("cpp", "fas fa-code");
    ("c++", "fas fa-code"); ("c", "fas fa-code");
    ("csharp", "fas fa-code"); ("c#", "fas fa-code");
    ("swift", "fab fa-swift"); ("kotlin", "fas fa-code");
    ("ruby", "fas fa-gem"); ("rb", "fas fa-gem");
    ("shell", "fas fa-terminal"); ("bash", "fas fa-terminal");
    ("sh", "fas fa-terminal"); ("powershell", "fas fa-terminal");
    ("sql", "fas fa-database"); ("mysql", "fas fa-database");
    ("postgresql", "fas fa-database"); ("mongodb", "fas fa-database");
    ("json", "fas fa-file-code"); ("xml", "fas fa-code");
    ("yaml", "fas fa-file-code"); ("yml", "fas fa-file-code");
    ("toml", "fas fa-file-code"); ("ini", "fas fa-file-code");
    ("markdown", "fab fa-markdown"); ("md", "fab fa-markdown");
    ("text", "fas fa-file-alt"); ("txt", "fas fa-file-alt");
    ("default", "fas fa-code") ]%string.

Fixpoint assoc (key : list N) (tbl : list (list N * list N))
  : option (list N) :=
  match tbl with
  | [] => None
  | (k, v) :: tbl' => if eqb_str k key then Some v else assoc key tbl'
  end.

(** The property names every object literal inherits from
    [Object.prototype]. *)
Definition object_prototype_keys : list (list N) :=
  map jss
  [ "constructor"; "__proto__"; "hasOwnProperty"; "isPrototypeOf";
    "propertyIsEnumerable"; "toLocaleString"; "toString"; "valueOf";
    "__defineGetter__"; "__defineSetter__"; "__lookupGetter__";
    "__lookupSetter__" ]%string.

(** What a property read can give here: a string, something that is
    not a string (the inherited functions and objects), or
    [undefined]. *)
Inductive jsval :=
| VString (s : list N)
| VObject
| VUndefined.

(** [obj[key]] on an object literal with own properties [tbl]: own
    property first, then the prototype. *)
Definition get (tbl : list (list N * list N)) (key : list N) : jsval :=
  match assoc key tbl with
  | Some v => VString v
  | None =>
      if existsb (eqb_str key) object_prototype_keys then VObject
      else VUndefined
  end.

Definition truthy (v : jsval) : bool :=
  match v with
  | VString [] => false
  | VString _ => true
  | VObject => true
  | VUndefined => false
  end.

(** [a || b] *)
Definition js_or (a b : jsval) : jsval := if truthy a then a else b.

Definition admonitionTypes : list (list N) :=
  map jss [ "note"; "tip"; "important"; "success"; "warning"; "caution";
            "danger"; "error" ]%string.

Definition admonitionIcons : list (list N * list N) :=
  map (fun kv => (jss (fst kv), jss (snd kv)))
  [ ("note", "fas fa-info-circle"); ("tip", "fas fa-lightbulb");
    ("important", "fas fa-exclamation-circle");
    ("success", "fas fa-check-circle");
    ("warning", "fas fa-exclamation-triangle");
    ("caution", "fas fa-exclamation-triangle");
    ("danger", "fas fa-skull-crossbones");
    ("error", "fas fa-times-circle") ]%string.

Definition element (tag : string) (classes : list (list N))
  (extra : gmap (list N) (list N)) (cs : list node) : node :=
  Node (jss "element") (Some (jss tag)) []
       (Some (Properties (Some classes) extra)) None None cs.

Definition text (v : list N) : node :=
  Node (jss "text") None [] None None (Some v) [].

Section Decorators.

(** [String.prototype.toLowerCase] and [toUpperCase]: the host's
    Unicode case conversions. *)
Variable toLowerCase : list N -> list N.
Variable toUpperCase : list N -> list N.

(** The callback of [rehypeCodeLanguageIcons]. *)
Definition languageIcon_callback (n : node) : outcome node :=
  if is_type n "element" && is_tag n "pre" then
    match find (fun child => is_type child "element" && is_tag child "code")
               (children n) with
    | Some codeElement =>
        match props codeElement with
        | Some (Properties (Some classes) _) =>
            match find (starts_with (jss "language-")) classes with
            | Some languageClass =>
                if eqb_str languageClass [] then Done n
                else
                let language :=
                  toLowerCase (remove_first (jss "language-") languageClass) in
                let iconClass :=
                  js_or (get languageIcons language)
                        (get languageIcons (jss "default")) in
                let p0 :=
                  match props n with
                  | Some p => p
                  | None => Properties None ∅
                  end in
                let classes0 :=
                  match className p0 with
                  | Some l => l
                  | None => []
                  end in
                let p1 :=
                  Properties (Some (classes0 ++ [jss "has-language"]))
                             (<[jss "data-language" := language]> (attrs p0)) in
                match iconClass with
                | VString ic =>
                    let languageIcon :=
                      element "div" [jss "language-icon"] ∅
                        [ element "i" (split_space ic)
                            {[ jss "title" := toUpperCase language ]} [] ] in
                    Done (Node (type n) (tagName n) (name n) (Some p1)
                               (data_value n) (value n)
                               (languageIcon :: children n))
                | _ => TypeError
                end
            | None => Done n
            end
        | _ => Done n
        end
    | None => Done n
    end
  else Done n.

Definition rehypeCodeLanguageIcons (tree : node) : outcome node :=
  visit (height tree + 3) languageIcon_callback tree.

(** [type.charAt(0).toUpperCase() + type.slice(1)] *)
Definition capitalize (t : list N) : list N :=
  toUpperCase (firstn 1 t) ++ skipn 1 t.

(** [node.children[0]?.data?.value || capitalize(type)] *)
Definition titleText (cs : list node) (t : list N) : list N :=
  match cs with
  | c :: _ =>
      match data_value c with
      | Some (x :: v) => x :: v
      | _ => capitalize t
      end
  | [] => capitalize t
  end.

(** [admonitionIcons[type] || 'fas fa-info-circle'] *)
Definition titleIconClass (t : list N) : jsval :=
  js_or (get admonitionIcons t) (VString (jss "fas fa-info-circle")).

Definition titleNode (cs : list node) (t icon : list N) : node :=
  element "div" [jss "admonition-title"] ∅
    [ element "i" (split_space icon) ∅ [];
      text (jss " " ++ titleText cs t) ].

Definition contentNode (cs : list node) : node :=
  element "div" [jss "admonition-content"] ∅ (skipn 1 cs).

(** The callback of [rehypeAdmonitions]. *)
Definition admonition_callback (n : node) : outcome node :=
  if is_type n "containerDirective" then
    let t := toLowerCase (name n) in
    if existsb (eqb_str t) admonitionTypes then
      match titleIconClass t with
      | VString icon =>
          Done (Node (jss "element") (Some (jss "div")) (name n)
                 (Some (Properties
                          (Some [jss "admonition"; jss "admonition-" ++ t]) ∅))
                 (data_value n) (value n)
                 [titleNode (children n) t icon; contentNode (children n)])
      | _ => TypeError
      end
    else Done n
  else Done n.

Definition rehypeAdmonitions (tree : node) : outcome node :=
  visit (2 * height tree + 2) admonition_callback tree.

End Decorators.

End Hast.

(* ------------------------------------------------------------------ *)
(** ** PipelineOrchestrator: the activation gate *)

Module Page.

(** What the gate reads and what the pipeline may change.
    [pre_textContent] is [document.querySelector("pre")?.textContent];
    [rendering] stands for everything of the document a script can
    change (styles, [innerHTML], the head). *)
Record page (D : Type) := MkPage {
  pathname : list N;
  pre_textContent : option (list N);
  rendering : D }.
Arguments MkPage {D}.
Arguments pathname {D}.
Arguments pre_textContent {D}.
Arguments rendering {D}.

Definition isMarkdownFile (path : list N) : bool :=
  ends_with (jss ".md") path
  || ends_with (jss ".markdown") path
  || ends_with (jss ".mdown") path.

Section Gate.

Variable D : Type.

(** Everything [renderMarkdown] does from
    [document.body.style.display = "none"] on: loading the modules,
    running the processor, replacing the document. *)
Variable render_pipeline : page D -> page D.

(** [renderMarkdown]: the page afterwards and the console output. *)
Definition renderMarkdown (doc : page D) : page D * list (list N) :=
  match pre_textContent doc with
  | None | Some [] => (doc, [jss "zysays: No markdown content found."])
  | Some (_ :: _) =>
      if negb (isMarkdownFile (pathname doc))
      then (doc, [jss "zysays: Not a markdown file."])
      else (render_pipeline doc, [])
  end.

(** What [initializeTextTransformations] of [core/addTag.js] sets up. *)
Inductive scheduled :=
| OnDOMContentLoaded_applySafeTextTransformations
| Call_applySafeTextTransformations.

Definition initializeTextTransformations (doc : page D) (loading : bool)
  : list scheduled :=
  if isMarkdownFile (pathname doc) then
    if loading then [OnDOMContentLoaded_applySafeTextTransformations]
    else [Call_applySafeTextTransformations]
  else [].

End Gate.

End Page.

(* ------------------------------------------------------------------ *)
(** ** The rewriter as the specification words it, and notions used to
       state its properties *)

Module RewriterSpec.

(** The first occurrence of marker [m] in [s]: the text before it and
    the text after it. *)
Fixpoint split_first (m s : list N) : option (list N * list N) :=
  if starts_with m s then Some ([], skipn (length m) s)
  else
    match s with
    | [] => None
    | c :: s' =>
        match split_first m s' with
        | Some (before, after) => Some (c :: before, after)
        | None => None
        end
    end.

(** Pairing as the specification describes it: take the leftmost
    opening marker, pair it with the next closing marker after it
    (the shortest span), wrap what lies between, and go on after the
    closing marker; a marker without a partner stays as it is. *)
Fixpoint pair_loop (r : rule) (fuel : nat) (s : list N) : list N :=
  match fuel with
  | O => s
  | S fuel' =>
      match split_first (opener r) s with
      | None => s
      | Some (before, after) =>
          match split_first (closer r) after with
          | None => s
          | Some (cap, rest) =>
              before ++ tag_open r ++ cap ++ tag_close r
                     ++ pair_loop r fuel' rest
          end
      end
  end.

Definition pair_markers (r : rule) (s : list N) : list N :=
  pair_loop r (length s) s.

(** The pattern has a match starting at the head of [s]. *)
Definition match_at (r : rule) (s : list N) : bool :=
  match exec_at r s with
  | Some _ => true
  | None => false
  end.

(** The pattern has a match somewhere in [s]. *)
Fixpoint any_match (r : rule) (s : list N) : bool :=
  match s with
  | [] => false
  | _ :: s' => match_at r s || any_match r s'
  end.

(** The closer can be reached from the head of [s] by [.*?]. *)
Definition closable (C s : list N) : bool :=
  match lazy_dot_then C s with
  | Some _ => true
  | None => false
  end.

(** Some opener in [a] is followed by no line terminator up to the end
    of [a]: a match begun there would have to be closed after [a]. *)
Fixpoint open_tail (r : rule) (a : list N) : bool :=
  match a with
  | [] => false
  | _ :: a' =>
      (starts_with (opener r) a
       && no_line_terminator (skipn (length (opener r)) a))
      || open_tail r a'
  end.

(** The captures of the matches of [r] in [s], in order. *)
Definition captures (r : rule) (s : list N) : list (list N) :=
  flat_map (fun p => match p with Lit _ => [] | Span cap => [cap] end)
           (scan r s).

(** No subscript span matched by the third replace captures text that
    contains the opening marker [_-] again. *)
Definition sub_nesting_free (s : list N) : bool :=
  forallb (fun cap => negb (includes (opener subRegex) cap))
          (captures subRegex (addSuperScript (addMarkTags s))).

(** [x] cannot take part in an occurrence of [m]: it is not empty,
    [m] does not occur in it, and its first and last code units are
    not in [m]. *)
Definition mem (c : N) (m : list N) : bool := existsb (N.eqb c) m.

Definition inert (x m : list N) : bool :=
  match x with
  | [] => false
  | c :: _ =>
      negb (mem c m) && negb (mem (List.last x c) m) && negb (includes m x)
  end.

(** What the generic lemmas need of a rule: non-empty markers, tags and
    markers free of line terminators, tags that cannot take part in an
    occurrence of a marker. *)
Definition well_formed (r : rule) : bool :=
  negb (eqb_str (opener r) []) && negb (eqb_str (closer r) [])
  && no_line_terminator (opener r) && no_line_terminator (closer r)
  && no_line_terminator (tag_open r) && no_line_terminator (tag_close r)
  && inert (tag_open r) (opener r) && inert (tag_open r) (closer r)
  && inert (tag_close r) (opener r) && inert (tag_close r) (closer r).

(** Rule [r'] leaves the markers of [r] alone: its markers and tags
    cannot take part in an occurrence of a marker of [r]. *)
Definition foreign (r' r : rule) : bool :=
  forallb (fun x => inert x (opener r) && inert x (closer r)
                    && no_line_terminator x)
          [opener r'; closer r'; tag_open r'; tag_close r'].

End RewriterSpec.
Export RewriterSpec.

(* ------------------------------------------------------------------ *)
(** ** Notions used to state the properties of the walker *)

Module DomSpec.
Import Dom.





End DomSpec.

(* ------------------------------------------------------------------ *)
(** ** Notions used to state the properties of the decorators *)

Module HastSpec.
Import Hast.

(** The case conversions on ASCII letters; other code units are left
    alone.  On ASCII text this is what the host functions do. *)
Definition ascii_lower (s : list N) : list N :=
  map (fun c => if (65 <=? c)%N && (c <=? 90)%N then (c + 32)%N else c) s.

Definition ascii_upper (s : list N) : list N :=
  map (fun c => if (97 <=? c)%N && (c <=? 122)%N then (c - 32)%N else c) s.


Section Admonish.

Variable toLowerCase : list N -> list N.
Variable toUpperCase : list N -> list N.

Definition recognized (n : node) : bool :=
  is_type n "containerDirective"
  && existsb (eqb_str (toLowerCase (name n))) admonitionTypes.

(** The tree [rehypeAdmonitions] leaves behind, by recursion on the
    tree it is given: a recognized directive becomes the admonition
    element over its decorated children but the first, any other node
    keeps its fields over its decorated children. *)
Fixpoint admonish (n : node) : node :=
  match n with
  | Node ty tg nm pr dv v cs =>
      let t := toLowerCase nm in
      if recognized n then
        match titleIconClass t with
        | VString icon =>
            Node (jss "element") (Some (jss "div")) nm
                 (Some (Properties
                          (Some [jss "admonition"; jss "admonition-" ++ t]) ∅))
                 dv v
                 [ titleNode toUpperCase cs t icon;
                   element "div" [jss "admonition-content"] ∅
                     match cs with
                     | [] => []
                     | _ :: body => map admonish body
                     end ]
        | _ => Node ty tg nm pr dv v (map admonish cs)
        end
      else Node ty tg nm pr dv v (map admonish cs)
  end.

End Admonish.

End HastSpec.

(* ------------------------------------------------------------------ *)
(** ** The other functions of [src/content.js], [core/addTag.js] and
       [core/copyCode.js] *)

Module Plugins.

(** [ellipses]: [input.replace(/\.\.\./g, '…')].  From the left, each
    three full stops (code unit 46) become one U+2026. *)
Fixpoint ellipses (input : list N) : list N :=
  match input with
  | [] => []
  | c :: s1 =>
      match s1 with
      | c2 :: c3 :: rest =>
          if (c =? 46)%N && (c2 =? 46)%N && (c3 =? 46)%N
          then 8230%N :: ellipses rest
          else c :: ellipses s1
      | _ => c :: ellipses s1
      end
  end.

(** [s.split(sep)] for a separator of one code unit. *)
Fixpoint split_on (sep : N) (s : list N) : list (list N) :=
  match s with
  | [] => [[]]
  | c :: s' =>
      if (c =? sep)%N then [] :: split_on sep s'
      else
        match split_on sep s' with
        | w :: ws => (c :: w) :: ws
        | [] => [[c]]
        end
  end.

(** The title [renderMarkdown] gives the page:
    [document.title || pathname.split("/").pop() || "Markdown Preview"]. *)
Definition pageTitle (documentTitle pathname : list N) : list N :=
  match documentTitle with
  | _ :: _ => documentTitle
  | [] =>
      match List.last (split_on 47 pathname) [] with
      | c :: name => c :: name
      | [] => jss "Markdown Preview"
      end
  end.

(** The part of the document [injectTextTransformationStyles] looks
    at: the children of [head] as pairs of [id] and [textContent], and
    the [id]s found in the rest of the document. *)
Record styled := Styled {
  head : list (list N * list N);
  other_ids : list (list N) }.

Definition getElementById (doc : styled) (id : list N) : bool :=
  existsb (fun e => eqb_str (fst e) id) (head doc)
  || existsb (fun i => eqb_str i id) (other_ids doc).

Definition styleId : list N := jss "text-transformation-styles".

Section Styles.

(** The style sheet text, [textTransformationStyles]. *)
Variable textTransformationStyles : list N.

Definition injectTextTransformationStyles (doc : styled) : styled :=
  if getElementById doc styleId then doc
  else Styled (head doc ++ [(styleId, textTransformationStyles)])
              (other_ids doc).

End Styles.

End Plugins.

Module CopyButtons.
Import Dom.



Definition is_pre (n : node) : bool :=
  match n with
  | Element tag _ => eqb_str tag (jss "PRE")
  | _ => false
  end.

(** [addCopyButtons] of [core/copyCode.js]: the button is put before
    every [pre], next to it in its parent. *)
Fixpoint addCopyButtons (button : node) (n : node) : node :=
  match n with
  | Element tag cs =>
      Element tag
        (flat_map (fun c => if is_pre c
                            then [button; addCopyButtons button c]
                            else [addCopyButtons button c]) cs)
  | _ => n
  end.



End CopyButtons.

Module HastFacts.
Import Hast.

(** [p] holds of every node of the tree. *)
Fixpoint every_node (p : node -> bool) (n : node) : bool :=
  p n && forallb (every_node p) (children n).

End HastFacts.

(* ------------------------------------------------------------------ *)
(** ** A replace as a machine with two states *)

Module Machine.

(** Outside a span the machine waits for a match of the whole
    pattern, inside for the closer. *)
Inductive mode :=
| Outside
| Inside.

Definition flip (st : mode) : mode :=
  match st with
  | Outside => Inside
  | Inside => Outside
  end.

Definition fires (r : rule) (st : mode) (s : list N) : bool :=
  match st with
  | Outside => match_at r s
  | Inside => starts_with (closer r) s
  end.

Definition marker (r : rule) (st : mode) : list N :=
  match st with
  | Outside => opener r
  | Inside => closer r
  end.

Definition tag (r : rule) (st : mode) : list N :=
  match st with
  | Outside => tag_open r
  | Inside => tag_close r
  end.

(** One pass over the subject: where the machine fires it writes the
    tag and drops the marker ([skip] counts what is left to drop),
    elsewhere it copies. *)
Fixpoint run (r : rule) (st : mode) (skip : nat) (s : list N) : list N :=
  match s with
  | [] => []
  | c :: s' =>
      match skip with
      | S k => run r st k s'
      | O =>
          if fires r st s
          then tag r st ++ run r (flip st) (length (marker r st) - 1) s'
          else c :: run r st 0 s'
      end
  end.

End Machine.

(* ================================================================== *)
(** * Properties *)

(* ------------------------------------------------------------------ *)
(** ** Strings *)

Section StringFacts.

Lemma eqb_str_eq (a b : list N) : eqb_str a b = true <-> a = b.
Proof.
  revert b; induction a as [|x a IH]; intros [|y b]; simpl;
    try (split; (reflexivity || discriminate)).
  rewrite andb_true_iff, N.eqb_eq, IH. split.
  - intros [-> ->]; reflexivity.
  - intros [= -> ->]; auto.
Qed.

Lemma eqb_str_refl (a : list N) : eqb_str a a = true.
Proof. apply eqb_str_eq; reflexivity. Qed.

Lemma eqb_str_neq (a b : list N) : eqb_str a b = false <-> a <> b.
Proof.
  rewrite <- eqb_str_eq. destruct (eqb_str a b); split; congruence.
Qed.

Lemma starts_with_app (m s : list N) : starts_with m (m ++ s) = true.
Proof.
  induction m as [|a m IH]; simpl; [reflexivity|].
  rewrite N.eqb_refl; exact IH.
Qed.

Lemma starts_with_split (m s : list N) :
  starts_with m s = true -> s = m ++ skipn (length m) s.
Proof.
  revert s; induction m as [|a m IH]; intros s H; simpl in *; [reflexivity|].
  destruct s as [|b s]; [discriminate|].
  apply andb_true_iff in H as [Hab H]. apply N.eqb_eq in Hab; subst b.
  simpl. f_equal. apply IH, H.
Qed.

Lemma starts_with_nil_r (m : list N) : starts_with m [] = eqb_str m [].
Proof. destruct m; reflexivity. Qed.

(** A prefix test only looks at the first [length m] code units. *)
Lemma starts_with_long (m u v : list N) :
  length m <= length u -> starts_with m (u ++ v) = starts_with m u.
Proof.
  revert u; induction m as [|a m IH]; intros u H; simpl; [reflexivity|].
  destruct u as [|b u]; simpl in *; [lia|].
  rewrite IH by lia. reflexivity.
Qed.

Lemma starts_with_length (m s : list N) :
  starts_with m s = true -> length m <= length s.
Proof.
  intros H. apply starts_with_split in H.
  apply (f_equal (@length N)) in H. rewrite length_app in H. lia.
Qed.

Lemma no_lt_app (a b : list N) :
  no_line_terminator (a ++ b)
  = no_line_terminator a && no_line_terminator b.
Proof. apply forallb_app. Qed.

Lemma includes_cons (m : list N) (c : N) (s : list N) :
  includes m (c :: s) = starts_with m (c :: s) || includes m s.
Proof. reflexivity. Qed.

Lemma includes_false_head (m s : list N) :
  includes m s = false -> starts_with m s = false.
Proof.
  destruct s; simpl; intros H; apply orb_false_iff in H as [H _]; exact H.
Qed.

End StringFacts.

(* ------------------------------------------------------------------ *)
(** ** The match loop *)

Section ScanFacts.

Lemma lazy_dot_then_eq (C s : list N) :
  lazy_dot_then C s =
  if starts_with C s then Some ([], skipn (length C) s)
  else
    match s with
    | [] => None
    | c :: s' =>
        if is_line_terminator c then None
        else
          match lazy_dot_then C s' with
          | Some (cap, rest) => Some (c :: cap, rest)
          | None => None
          end
    end.
Proof. destruct s; reflexivity. Qed.

(** A successful lazy scan cuts [s] into capture, closer and rest; the
    capture has no line terminator, and the closer does not start
    anywhere inside it (the span is the shortest one). *)
Lemma lazy_dot_then_some (C s cap rest : list N) :
  lazy_dot_then C s = Some (cap, rest) ->
  s = cap ++ C ++ rest
  /\ no_line_terminator cap = true
  /\ forall c1 c2, cap = c1 ++ c2 -> c2 <> [] ->
       starts_with C (c2 ++ C ++ rest) = false.
Proof.
  revert cap; induction s as [|c s IH]; intros cap;
    rewrite lazy_dot_then_eq.
  - destruct (starts_with C []) eqn:E; [|discriminate].
    intros [= <- <-]. apply starts_with_split in E.
    repeat split; [exact E | intros [|] ? ? ?; simpl in *; congruence].
  - destruct (starts_with C (c :: s)) eqn:E.
    + intros [= <- <-]. apply starts_with_split in E.
      repeat split; [exact E | intros [|] ? ? ?; simpl in *; congruence].
    + destruct (is_line_terminator c) eqn:Ec; [discriminate|].
      destruct (lazy_dot_then C s) as [[cap' rest']|] eqn:El; [|discriminate].
      intros [= <- <-]. destruct (IH _ eq_refl) as (Hs & Hn & Hmin).
      split; [simpl; congruence|]. split; [simpl; rewrite Ec; exact Hn|].
      intros [|x c1] c2 Hc Hne; simpl in Hc.
      * subst c2. simpl. rewrite <- Hs. exact E.
      * injection Hc as _ Hc. eapply Hmin; eauto.
Qed.

Lemma lazy_dot_then_app (C cap rest : list N) :
  no_line_terminator cap = true ->
  (forall c1 c2, cap = c1 ++ c2 -> c2 <> [] ->
     starts_with C (c2 ++ C ++ rest) = false) ->
  lazy_dot_then C (cap ++ C ++ rest) = Some (cap, rest).
Proof.
  induction cap as [|c cap IH]; intros Hn Hmin; rewrite lazy_dot_then_eq.
  - simpl. rewrite starts_with_app.
    rewrite skipn_app, skipn_all, Nat.sub_diag. reflexivity.
  - rewrite (Hmin [] (c :: cap) eq_refl) by discriminate.
    simpl in Hn |- *. apply andb_true_iff in Hn as [Hc Hn].
    apply negb_true_iff in Hc. rewrite Hc.
    rewrite IH; [reflexivity | exact Hn |].
    intros c1 c2 E Hne. apply (Hmin (c :: c1) c2); [simpl; congruence|exact Hne].
Qed.

Variable r : rule.
Hypothesis Hopener : opener r <> [].

Lemma exec_at_some (s cap rest : list N) :
  exec_at r s = Some (cap, rest) ->
  s = opener r ++ cap ++ closer r ++ rest
  /\ no_line_terminator cap = true
  /\ forall c1 c2, cap = c1 ++ c2 -> c2 <> [] ->
       starts_with (closer r) (c2 ++ closer r ++ rest) = false.
Proof.
  unfold exec_at. destruct (starts_with (opener r) s) eqn:E; [|discriminate].
  intros H. apply lazy_dot_then_some in H as (Hs & Hn & Hmin).
  apply starts_with_split in E. rewrite Hs in E. auto.
Qed.

Lemma exec_at_shorter (s cap rest : list N) :
  exec_at r s = Some (cap, rest) -> length rest < length s.
Proof.
  intros H. apply exec_at_some in H as (-> & _).
  rewrite !length_app. destruct (opener r); [congruence|simpl; lia].
Qed.

Lemma scan_loop_fuel (f1 f2 : nat) (s : list N) :
  length s <= f1 -> length s <= f2 -> scan_loop r f1 s = scan_loop r f2 s.
Proof.
  revert f2 s; induction f1 as [|f1 IH]; intros f2 s H1 H2.
  - destruct s; [|simpl in H1; lia]. destruct f2; reflexivity.
  - destruct f2 as [|f2].
    + destruct s; [reflexivity|simpl in H2; lia].
    + destruct s as [|c s]; [reflexivity|]. simpl scan_loop.
      destruct (exec_at r (c :: s)) as [[cap rest]|] eqn:E.
      * apply exec_at_shorter in E. simpl in *.
        f_equal. apply IH; lia.
      * simpl in *. f_equal. apply IH; lia.
Qed.

Lemma scan_nil : scan r [] = [].
Proof. reflexivity. Qed.

Lemma scan_cons (c : N) (s : list N) :
  scan r (c :: s) =
  match exec_at r (c :: s) with
  | Some (cap, rest) => Span cap :: scan r rest
  | None => Lit c :: scan r s
  end.
Proof.
  unfold scan. simpl scan_loop.
  destruct (exec_at r (c :: s)) as [[cap rest]|] eqn:E; [|reflexivity].
  apply exec_at_shorter in E. simpl in E.
  f_equal. apply scan_loop_fuel; lia.
Qed.

Lemma replace_all_nil : replace_all r [] = [].
Proof. reflexivity. Qed.

Lemma replace_all_lit (c : N) (s : list N) :
  exec_at r (c :: s) = None ->
  replace_all r (c :: s) = c :: replace_all r s.
Proof. intros E. unfold replace_all. rewrite scan_cons, E. reflexivity. Qed.

Lemma replace_all_span (c : N) (s cap rest : list N) :
  exec_at r (c :: s) = Some (cap, rest) ->
  replace_all r (c :: s)
  = tag_open r ++ cap ++ tag_close r ++ replace_all r rest.
Proof.
  intros E. unfold replace_all. rewrite scan_cons, E. simpl.
  rewrite <- !app_assoc. reflexivity.
Qed.

(** Induction along the match loop. *)
Lemma scan_ind (P : list N -> Prop) :
  P [] ->
  (forall c s, exec_at r (c :: s) = None -> P s -> P (c :: s)) ->
  (forall c s cap rest,
      exec_at r (c :: s) = Some (cap, rest) -> P rest -> P (c :: s)) ->
  forall s, P s.
Proof.
  intros Hnil Hlit Hspan s.
  remember (length s) as n eqn:Hn. revert s Hn.
  induction n as [n IH] using lt_wf_ind. intros [|c s] Hn; [exact Hnil|].
  destruct (exec_at r (c :: s)) as [[cap rest]|] eqn:E.
  - eapply Hspan; [exact E|].
    apply exec_at_shorter in E. eapply IH; [|reflexivity]. lia.
  - apply Hlit; [exact E|]. eapply IH; [|reflexivity]. simpl in Hn; lia.
Qed.

(** The pieces of the loop, read back as source text, are the subject. *)
Lemma scan_source (s : list N) : flat_map (source r) (scan r s) = s.
Proof.
  induction s as [|c s E IH|c s cap rest E IH] using scan_ind.
  - reflexivity.
  - rewrite scan_cons, E. simpl. rewrite IH. reflexivity.
  - rewrite scan_cons, E. simpl. rewrite IH.
    apply exec_at_some in E as (-> & _). rewrite <- !app_assoc. reflexivity.
Qed.

(** Without an occurrence of the opener nothing is replaced. *)
Lemma replace_all_no_opener (s : list N) :
  includes (opener r) s = false -> replace_all r s = s.
Proof.
  induction s as [|c s IH]; intros H; [reflexivity|].
  rewrite includes_cons in H. apply orb_false_iff in H as [H1 H2].
  rewrite replace_all_lit; [rewrite IH by exact H2; reflexivity|].
  unfold exec_at. rewrite H1. reflexivity.
Qed.

End ScanFacts.

(* ------------------------------------------------------------------ *)
(** ** Occurrences of a marker *)

Section Occurrences.

Lemma starts_with_app_l (m a b : list N) :
  starts_with m a = true -> starts_with m (a ++ b) = true.
Proof.
  intros H. rewrite starts_with_long; [exact H|].
  apply starts_with_length, H.
Qed.

Lemma includes_app_r (m a b : list N) :
  includes m b = true -> includes m (a ++ b) = true.
Proof.
  intros H. induction a as [|c a IH]; [exact H|].
  simpl app. rewrite includes_cons, IH. apply orb_true_r.
Qed.

Lemma includes_app_l (m a b : list N) :
  includes m a = true -> includes m (a ++ b) = true.
Proof.
  induction a as [|c a IH]; intros H.
  - simpl in H. rewrite orb_false_r in H.
    rewrite starts_with_nil_r in H. apply eqb_str_eq in H; subst m.
    destruct b; reflexivity.
  - simpl app. rewrite includes_cons in *.
    apply orb_true_iff in H as [H|H].
    + change (c :: a ++ b) with ((c :: a) ++ b).
      rewrite starts_with_app_l by exact H. reflexivity.
    + rewrite IH by exact H. apply orb_true_r.
Qed.

Lemma includes_self_app (m b : list N) : includes m (m ++ b) = true.
Proof.
  destruct (m ++ b) eqn:E; simpl; rewrite <- E, starts_with_app; reflexivity.
Qed.

Lemma includes_skipn (m s : list N) (k : nat) :
  includes m s = false -> includes m (skipn k s) = false.
Proof.
  revert s; induction k as [|k IH]; intros s H; [exact H|].
  destruct s as [|c s]; [exact H|]. simpl skipn.
  rewrite includes_cons in H. apply orb_false_iff in H as [_ H].
  apply IH, H.
Qed.

Lemma split_first_eq (m s : list N) :
  split_first m s =
  if starts_with m s then Some ([], skipn (length m) s)
  else
    match s with
    | [] => None
    | c :: s' =>
        match split_first m s' with
        | Some (before, after) => Some (c :: before, after)
        | None => None
        end
    end.
Proof. destruct s; reflexivity. Qed.

Lemma split_first_some (m s a b : list N) :
  split_first m s = Some (a, b) -> s = a ++ m ++ b.
Proof.
  revert a; induction s as [|c s IH]; intros a; rewrite split_first_eq.
  - destruct (starts_with m []) eqn:E; [|discriminate].
    intros [= <- <-]. apply starts_with_split in E. exact E.
  - destruct (starts_with m (c :: s)) eqn:E.
    + intros [= <- <-]. apply starts_with_split in E. exact E.
    + destruct (split_first m s) as [[a' b']|]; [|discriminate].
      intros [= <- <-]. simpl. f_equal. apply IH. reflexivity.
Qed.

Lemma split_first_none (m s : list N) :
  split_first m s = None <-> includes m s = false.
Proof.
  induction s as [|c s IH]; rewrite split_first_eq.
  - simpl. destruct (starts_with m []); simpl; split; congruence.
  - rewrite includes_cons. destruct (starts_with m (c :: s)); simpl.
    + split; discriminate.
    + rewrite <- IH. destruct (split_first m s) as [[? ?]|]; split; congruence.
Qed.

Lemma split_first_nil (m : list N) : m <> [] -> split_first m [] = None.
Proof. destruct m; [congruence|reflexivity]. Qed.

(** On text without line terminators [(.*?)C] finds the first [C]. *)
Lemma lazy_dot_then_split_first (C s : list N) :
  no_line_terminator s = true -> lazy_dot_then C s = split_first C s.
Proof.
  induction s as [|c s IH]; intros H;
    rewrite lazy_dot_then_eq, split_first_eq; [reflexivity|].
  simpl in H. apply andb_true_iff in H as [Hc H].
  apply negb_true_iff in Hc. rewrite Hc, IH by exact H. reflexivity.
Qed.

Lemma lazy_dot_then_includes (C s cap rest : list N) :
  lazy_dot_then C s = Some (cap, rest) -> includes C s = true.
Proof.
  intros H. apply lazy_dot_then_some in H as (-> & _).
  apply includes_app_r, includes_self_app.
Qed.

End Occurrences.

(* ------------------------------------------------------------------ *)
(** ** The match loop against the pairing of the specification *)

Section Pairing.

Variable r : rule.
Hypothesis Hopener : opener r <> [].

Lemma replace_all_before (s before after : list N) :
  split_first (opener r) s = Some (before, after) ->
  replace_all r s = before ++ replace_all r (opener r ++ after).
Proof.
  revert before; induction s as [|c s IH]; intros before;
    rewrite split_first_eq.
  - destruct (starts_with (opener r) []) eqn:E; [|discriminate].
    rewrite starts_with_nil_r in E. apply eqb_str_eq in E. congruence.
  - destruct (starts_with (opener r) (c :: s)) eqn:E.
    + intros [= <- <-]. apply starts_with_split in E. simpl. congruence.
    + destruct (split_first (opener r) s) as [[a b]|]; [|discriminate].
      intros [= <- <-]. rewrite replace_all_lit; [|exact Hopener|].
      * simpl. f_equal. apply IH. reflexivity.
      * unfold exec_at. rewrite E. reflexivity.
Qed.

(** An opener with no closer anywhere after it starts no match, and
    neither does anything after it. *)
Lemma replace_all_no_closer (s : list N) :
  includes (closer r) (skipn (length (opener r)) s) = false ->
  replace_all r s = s.
Proof.
  induction s as [|c s IH]; intros H; [reflexivity|].
  rewrite replace_all_lit; [f_equal; apply IH | exact Hopener |].
  - replace (skipn (length (opener r)) s)
      with (skipn 1 (skipn (length (opener r)) (c :: s))).
    + apply includes_skipn, H.
    + rewrite skipn_skipn. reflexivity.
  - unfold exec_at. destruct (starts_with (opener r) (c :: s)); [|reflexivity].
    destruct (lazy_dot_then _ _) as [[cap rest]|] eqn:E; [|reflexivity].
    apply lazy_dot_then_includes in E. congruence.
Qed.

Lemma pair_loop_fuel (f1 f2 : nat) (s : list N) :
  length s <= f1 -> length s <= f2 -> pair_loop r f1 s = pair_loop r f2 s.
Proof.
  revert f2 s; induction f1 as [|f1 IH]; intros f2 s H1 H2.
  - destruct s; [|simpl in H1; lia]. destruct f2; [reflexivity|].
    cbn [pair_loop]. rewrite split_first_nil by exact Hopener.
    reflexivity.
  - destruct f2 as [|f2].
    + destruct s; [|simpl in H2; lia]. cbn [pair_loop].
      rewrite split_first_nil by exact Hopener. reflexivity.
    + cbn [pair_loop]. destruct (split_first (opener r) s) as [[a b]|] eqn:E;
        [|reflexivity].
      destruct (split_first (closer r) b) as [[cap rest]|] eqn:E2;
        [|reflexivity].
      apply split_first_some in E, E2. subst s b.
      rewrite !length_app in H1, H2.
      assert (0 < length (opener r))
        by (destruct (opener r); [congruence|simpl; lia]).
      do 4 f_equal. apply IH; lia.
Qed.

(** On a subject without line terminators the match loop is exactly
    the left-to-right pairing of markers. *)
Lemma replace_all_pair_markers (s : list N) :
  no_line_terminator s = true -> replace_all r s = pair_markers r s.
Proof.
  remember (length s) as n eqn:Hn. revert s Hn.
  induction n as [n IH] using lt_wf_ind. intros s Hn Hlt.
  unfold pair_markers. rewrite <- Hn. destruct n as [|n].
  { destruct s; [reflexivity|discriminate]. }
  cbn [pair_loop]. destruct (split_first (opener r) s) as [[before after]|] eqn:E.
  2:{ apply replace_all_no_opener; [exact Hopener|].
      apply split_first_none, E. }
  rewrite (replace_all_before _ _ _ E).
  pose proof (split_first_some _ _ _ _ E) as Hs.
  assert (Hafter : no_line_terminator after = true).
  { rewrite Hs, !no_lt_app in Hlt.
    apply andb_true_iff in Hlt as [_ Hlt].
    apply andb_true_iff in Hlt as [_ Hlt]. exact Hlt. }
  assert (Hex : exec_at r (opener r ++ after)
                = split_first (closer r) after).
  { unfold exec_at. rewrite starts_with_app.
    rewrite skipn_app, skipn_all, Nat.sub_diag. simpl.
    apply lazy_dot_then_split_first, Hafter. }
  destruct (split_first (closer r) after) as [[cap rest]|] eqn:E2.
  - pose proof (split_first_some _ _ _ _ E2) as Hs2.
    assert (Hrest : no_line_terminator rest = true).
    { rewrite Hs2, !no_lt_app in Hafter.
      apply andb_true_iff in Hafter as [_ Hafter].
      apply andb_true_iff in Hafter as [_ Hafter]. exact Hafter. }
    assert (Hlen : length rest < S n).
    { rewrite Hn, Hs, Hs2, !length_app.
      destruct (opener r); [congruence|simpl; lia]. }
    destruct (opener r ++ after) as [|c t] eqn:Eo.
    { apply app_eq_nil in Eo as [Eo _]. contradiction. }
    rewrite (replace_all_span r Hopener _ _ _ _ Hex).
    rewrite (IH (length rest) Hlen rest eq_refl Hrest).
    unfold pair_markers. do 4 f_equal. apply pair_loop_fuel; lia.
  - rewrite replace_all_no_closer; [symmetry; exact Hs|].
    rewrite skipn_app, skipn_all, Nat.sub_diag. simpl.
    apply split_first_none, E2.
Qed.

End Pairing.

(* ------------------------------------------------------------------ *)
(** ** Text that cannot take part in an occurrence of a marker *)

Section Inert.

Lemma mem_cons_false (c a : N) (m : list N) :
  mem c (a :: m) = false -> a <> c /\ mem c m = false.
Proof.
  unfold mem. simpl. intros H. apply orb_false_iff in H as [H1 H2].
  apply N.eqb_neq in H1. split; [congruence|exact H2].
Qed.

Lemma starts_with_blocked (m : list N) (c : N) (x u b : list N) :
  mem c m = false ->
  starts_with m (u ++ (c :: x) ++ b) = starts_with m u.
Proof.
  revert u; induction m as [|a m IH]; intros u H; [reflexivity|].
  apply mem_cons_false in H as [Hac Hm].
  destruct u as [|d u]; simpl.
  - apply N.eqb_neq in Hac. rewrite Hac. reflexivity.
  - f_equal. apply IH, Hm.
Qed.

Lemma last_in_marker (m x b : list N) (d : N) :
  x <> [] -> length x < length m ->
  starts_with m (x ++ b) = true -> mem (List.last x d) m = true.
Proof.
  revert m; induction x as [|c x IH]; intros m Hne Hlen H; [congruence|].
  destruct m as [|a m]; [simpl in Hlen; lia|].
  simpl in H. apply andb_true_iff in H as [Hac H].
  destruct x as [|c' x].
  - unfold mem. simpl. apply N.eqb_eq in Hac; subst.
    rewrite N.eqb_refl. reflexivity.
  - change (List.last (c :: c' :: x) d) with (List.last (c' :: x) d).
    unfold mem. simpl existsb. apply orb_true_iff. right.
    apply IH; [discriminate | simpl in *; lia | exact H].
Qed.

Lemma last_suffix (x1 x2 : list N) (d : N) :
  x2 <> [] -> List.last (x1 ++ x2) d = List.last x2 d.
Proof.
  intros Hne. induction x1 as [|c x1 IH]; [reflexivity|].
  simpl app. destruct (x1 ++ x2) eqn:E.
  - apply app_eq_nil in E as [_ E]. contradiction.
  - rewrite <- IH. reflexivity.
Qed.

Variables x m : list N.
Hypothesis Hinert : inert x m = true.

Lemma inert_nonempty : x <> [].
Proof. intros ->. discriminate Hinert. Qed.

Lemma inert_marker_nonempty : m <> [].
Proof.
  intros ->. unfold inert in Hinert. destruct x as [|c t]; [discriminate|].
  simpl in Hinert. discriminate.
Qed.

(** An occurrence of [m] that begins before [x] ends before [x]. *)
Lemma inert_before (u b : list N) :
  starts_with m (u ++ x ++ b) = starts_with m u.
Proof.
  unfold inert in Hinert. destruct x as [|c t]; [discriminate|].
  apply andb_true_iff in Hinert as [H _].
  apply andb_true_iff in H as [H _]. apply negb_true_iff in H.
  apply starts_with_blocked, H.
Qed.

(** No occurrence of [m] begins inside [x]. *)
Lemma inert_inside (x1 x2 b : list N) :
  x = x1 ++ x2 -> x2 <> [] -> starts_with m (x2 ++ b) = false.
Proof.
  intros Hx Hne. destruct (starts_with m (x2 ++ b)) eqn:E; [|reflexivity].
  exfalso. unfold inert in Hinert. destruct x as [|c t] eqn:Ex;
    [discriminate|].
  apply andb_true_iff in Hinert as [H Hinc].
  apply andb_true_iff in H as [_ Hlast].
  apply negb_true_iff in Hinc, Hlast.
  destruct (le_lt_dec (length m) (length x2)) as [Hle|Hlt].
  - rewrite starts_with_long in E by exact Hle.
    assert (includes m (x1 ++ x2) = true).
    { apply includes_app_r. destruct x2; simpl; rewrite E; reflexivity. }
    congruence.
  - pose proof (last_in_marker m x2 b c Hne Hlt E) as Hl.
    rewrite <- (last_suffix x1 x2 c Hne), <- Hx in Hl. congruence.
Qed.

End Inert.

(* ------------------------------------------------------------------ *)
(** ** Where a pattern can still match *)

Section Matches.

Lemma closable_nil (C : list N) : C <> [] -> closable C [] = false.
Proof. destruct C; [congruence|reflexivity]. Qed.

Lemma closable_cons (C : list N) (c : N) (s : list N) :
  closable C (c :: s)
  = starts_with C (c :: s) || (negb (is_line_terminator c) && closable C s).
Proof.
  unfold closable. rewrite lazy_dot_then_eq.
  destruct (starts_with C (c :: s)); [reflexivity|].
  destruct (is_line_terminator c); [reflexivity|]. simpl.
  destruct (lazy_dot_then C s) as [[? ?]|]; reflexivity.
Qed.

(** A closer behind text without line terminators can be reached. *)
Lemma closable_reach (C u b : list N) :
  no_line_terminator u = true -> closable C (u ++ C ++ b) = true.
Proof.
  induction u as [|c u IH]; intros H.
  - simpl. destruct (C ++ b) eqn:E.
    + unfold closable. rewrite lazy_dot_then_eq, <- E, starts_with_app.
      reflexivity.
    + rewrite closable_cons, <- E, starts_with_app. reflexivity.
  - simpl in H. apply andb_true_iff in H as [Hc H].
    simpl app. rewrite closable_cons, Hc, IH by exact H.
    apply orb_true_r.
Qed.

Lemma closable_skip_inert (C x b : list N) :
  inert x C = true -> no_line_terminator x = true ->
  closable C (x ++ b) = closable C b.
Proof.
  intros Hi Hn.
  assert (G : forall x2 x1, x = x1 ++ x2 ->
                closable C (x2 ++ b) = closable C b).
  { induction x2 as [|c x2 IH]; intros x1 Hx; [reflexivity|].
    simpl app. rewrite closable_cons.
    change (c :: x2 ++ b) with ((c :: x2) ++ b).
    rewrite (inert_inside x C Hi x1 (c :: x2) b Hx) by discriminate.
    rewrite Hx, no_lt_app in Hn. apply andb_true_iff in Hn as [_ Hn].
    simpl in Hn. apply andb_true_iff in Hn as [Hc _]. rewrite Hc. simpl.
    apply (IH (x1 ++ [c])). rewrite <- app_assoc. exact Hx. }
  apply (G x []). reflexivity.
Qed.

(** Reaching a closer across an inert stretch [x]. *)
Lemma closable_across (C x u b : list N) :
  inert x C = true -> no_line_terminator x = true ->
  closable C (u ++ x ++ b)
  = closable C u || (no_line_terminator u && closable C b).
Proof.
  intros Hi Hn. induction u as [|c u IH].
  - simpl app. rewrite closable_skip_inert by assumption.
    rewrite closable_nil by (eapply inert_marker_nonempty; eauto).
    reflexivity.
  - simpl app. rewrite !closable_cons.
    change (c :: u ++ x ++ b) with ((c :: u) ++ x ++ b).
    rewrite (inert_before x C Hi), IH. simpl no_line_terminator.
    destruct (starts_with C (c :: u)), (is_line_terminator c),
      (closable C u), (no_line_terminator u), (closable C b); reflexivity.
Qed.

Variable r : rule.

Lemma match_at_eq (s : list N) :
  match_at r s
  = starts_with (opener r) s
    && closable (closer r) (skipn (length (opener r)) s).
Proof.
  unfold match_at, exec_at, closable.
  destruct (starts_with (opener r) s); reflexivity.
Qed.

Lemma match_at_exec (s : list N) :
  match_at r s = false <-> exec_at r s = None.
Proof.
  unfold match_at. destruct (exec_at r s); split; congruence.
Qed.

(** Where no match can start the subject comes back unchanged. *)
Lemma replace_all_no_match (s : list N) :
  opener r <> [] -> any_match r s = false -> replace_all r s = s.
Proof.
  intros Ho. induction s as [|c s IH]; intros H; [reflexivity|].
  simpl in H. apply orb_false_iff in H as [H1 H2].
  apply match_at_exec in H1.
  rewrite replace_all_lit by assumption. f_equal. apply IH, H2.
Qed.

(** A stretch in which no opener begins can be skipped. *)
Lemma any_match_skip (t y : list N) :
  (forall t1 t2, t = t1 ++ t2 -> t2 <> [] ->
     starts_with (opener r) (t2 ++ y) = false) ->
  any_match r (t ++ y) = any_match r y.
Proof.
  induction t as [|c t IH]; intros H; [reflexivity|].
  simpl app. simpl any_match. rewrite match_at_eq.
  change (c :: t ++ y) with ((c :: t) ++ y).
  rewrite (H [] (c :: t) eq_refl) by discriminate. simpl.
  apply IH. intros t1 t2 E Hne. apply (H (c :: t1) t2); [|exact Hne].
  simpl. congruence.
Qed.

(** Matches in [a ++ x ++ b] when [x] is inert for both markers: they
    lie in [a], or in [b], or begin in [a] and are closed in [b]. *)
Lemma any_match_across (x a b : list N) :
  inert x (opener r) = true -> inert x (closer r) = true ->
  no_line_terminator x = true ->
  any_match r (a ++ x ++ b)
  = any_match r a || any_match r b
    || (open_tail r a && closable (closer r) b).
Proof.
  intros Ho Hc Hn. induction a as [|c a IH].
  - simpl app. rewrite any_match_skip; [simpl; rewrite orb_false_r; reflexivity|].
    intros t1 t2 E Hne. eapply inert_inside; eauto.
  - simpl app. simpl any_match. simpl open_tail. rewrite IH.
    rewrite !match_at_eq.
    change (c :: a ++ x ++ b) with ((c :: a) ++ x ++ b).
    rewrite (inert_before x (opener r) Ho).
    destruct (starts_with (opener r) (c :: a)) eqn:E.
    + rewrite skipn_app.
      pose proof (starts_with_length _ _ E) as Hlen.
      replace (length (opener r) - length (c :: a)) with 0 by lia.
      change (skipn 0 (x ++ b)) with (x ++ b).
      rewrite closable_across by assumption.
      destruct (closable (closer r) (skipn (length (opener r)) (c :: a))),
        (no_line_terminator (skipn (length (opener r)) (c :: a))),
        (closable (closer r) b), (any_match r a), (any_match r b),
        (open_tail r a); reflexivity.
    + simpl. reflexivity.
Qed.

Lemma any_match_swap (x y a b : list N) :
  inert x (opener r) = true -> inert x (closer r) = true ->
  no_line_terminator x = true ->
  inert y (opener r) = true -> inert y (closer r) = true ->
  no_line_terminator y = true ->
  any_match r (a ++ x ++ b) = any_match r (a ++ y ++ b).
Proof.
  intros. rewrite !any_match_across by assumption. reflexivity.
Qed.

End Matches.

(* ------------------------------------------------------------------ *)
(** ** A replace and the matches of another pattern *)

Section Foreign.

Variables r r' : rule.
Hypothesis Hforeign : foreign r' r = true.
Hypothesis Hopener' : opener r' <> [].

Lemma foreign_spec (x : list N) :
  In x [opener r'; closer r'; tag_open r'; tag_close r'] ->
  inert x (opener r) = true /\ inert x (closer r) = true
  /\ no_line_terminator x = true.
Proof.
  intros Hx. unfold foreign in Hforeign.
  rewrite forallb_forall in Hforeign. specialize (Hforeign x Hx).
  apply andb_true_iff in Hforeign as [H H3].
  apply andb_true_iff in H as [H1 H2]. auto.
Qed.

(** Replacing the matches of [r'] neither makes nor removes a place
    where [r] can match. *)
Lemma any_match_foreign (s a : list N) :
  any_match r (a ++ replace_all r' s) = any_match r (a ++ s).
Proof.
  revert a.
  induction s as [|c s E IH|c s cap rest E IH] using (scan_ind r' Hopener');
    intros a.
  - reflexivity.
  - rewrite replace_all_lit by assumption.
    change (a ++ c :: replace_all r' s) with (a ++ [c] ++ replace_all r' s).
    change (a ++ c :: s) with (a ++ [c] ++ s).
    rewrite !app_assoc. apply IH.
  - rewrite (replace_all_span r' Hopener' _ _ _ _ E).
    apply exec_at_some in E as (-> & _).
    destruct (foreign_spec (opener r')) as (A1 & A2 & A3); [simpl; auto|].
    destruct (foreign_spec (closer r')) as (B1 & B2 & B3); [simpl; auto|].
    destruct (foreign_spec (tag_open r')) as (C1 & C2 & C3); [simpl; auto|].
    destruct (foreign_spec (tag_close r')) as (D1 & D2 & D3); [simpl; auto 6|].
    replace (a ++ tag_open r' ++ cap ++ tag_close r' ++ replace_all r' rest)
      with ((a ++ tag_open r' ++ cap ++ tag_close r') ++ replace_all r' rest)
      by (rewrite <- !app_assoc; reflexivity).
    rewrite IH. rewrite <- !app_assoc.
    rewrite (any_match_swap r (tag_open r') (opener r')) by assumption.
    replace (a ++ opener r' ++ cap ++ tag_close r' ++ rest)
      with ((a ++ opener r' ++ cap) ++ tag_close r' ++ rest)
      by (rewrite <- !app_assoc; reflexivity).
    rewrite (any_match_swap r (tag_close r') (closer r')) by assumption.
    rewrite <- !app_assoc. reflexivity.
Qed.

Lemma any_match_foreign_replace (s : list N) :
  any_match r (replace_all r' s) = any_match r s.
Proof. apply (any_match_foreign s []). Qed.

End Foreign.

(* ------------------------------------------------------------------ *)
(** ** A replace and the matches of its own pattern *)

Section Own.

Variable r : rule.
Hypothesis Hwf : well_formed r = true.

Lemma well_formed_spec :
  opener r <> [] /\ closer r <> []
  /\ no_line_terminator (opener r) = true
  /\ no_line_terminator (closer r) = true
  /\ no_line_terminator (tag_open r) = true
  /\ no_line_terminator (tag_close r) = true
  /\ inert (tag_open r) (opener r) = true
  /\ inert (tag_open r) (closer r) = true
  /\ inert (tag_close r) (opener r) = true
  /\ inert (tag_close r) (closer r) = true.
Proof.
  unfold well_formed in Hwf.
  repeat (apply andb_true_iff in Hwf as [Hwf ?]).
  apply negb_true_iff, eqb_str_neq in Hwf.
  match goal with H : negb _ = true |- _ =>
    apply negb_true_iff, eqb_str_neq in H end.
  repeat split; assumption.
Qed.

Lemma opener_nonempty : opener r <> [].
Proof. exact (proj1 well_formed_spec). Qed.

Lemma captures_lit (c : N) (s : list N) :
  exec_at r (c :: s) = None -> captures r (c :: s) = captures r s.
Proof.
  intros E. unfold captures. rewrite (scan_cons r opener_nonempty), E.
  reflexivity.
Qed.

Lemma captures_span (c : N) (s cap rest : list N) :
  exec_at r (c :: s) = Some (cap, rest) ->
  captures r (c :: s) = cap :: captures r rest.
Proof.
  intros E. unfold captures. rewrite (scan_cons r opener_nonempty), E.
  reflexivity.
Qed.

(** A code unit of the result that is not the first of the opening tag
    was copied from the subject, and so was everything before it. *)
Lemma replace_all_prefix (u s : list N) :
  (forall p t, tag_open r = p :: t -> mem p u = false) ->
  starts_with u (replace_all r s) = true ->
  starts_with u s = true
  /\ replace_all r s = u ++ replace_all r (skipn (length u) s).
Proof.
  revert s; induction u as [|a u IH]; intros s Hp H; [split; reflexivity|].
  destruct s as [|c s]; [discriminate|].
  destruct (exec_at r (c :: s)) as [[cap rest]|] eqn:E.
  - exfalso. rewrite (replace_all_span r opener_nonempty _ _ _ _ E) in H.
    destruct well_formed_spec as (_ & _ & _ & _ & _ & _ & Hi & _).
    destruct (tag_open r) as [|p t] eqn:Et; [discriminate|].
    specialize (Hp p t eq_refl). apply mem_cons_false in Hp as [Hp _].
    simpl in H. apply andb_true_iff in H as [H _].
    apply N.eqb_eq in H. congruence.
  - rewrite (replace_all_lit r opener_nonempty _ _ E) in H |- *.
    simpl in H. apply andb_true_iff in H as [Hac H].
    destruct (IH s) as [H1 H2]; [|exact H|].
    + intros p t Et. specialize (Hp p t Et).
      apply mem_cons_false in Hp as [_ Hp]. exact Hp.
    + simpl. rewrite Hac, H1. split; [reflexivity|].
      apply N.eqb_eq in Hac; subst c. f_equal. exact H2.
Qed.

Lemma tag_open_not_in (m : list N) :
  inert (tag_open r) m = true ->
  forall p t, tag_open r = p :: t -> mem p m = false.
Proof.
  intros Hi p t Et. unfold inert in Hi. rewrite Et in Hi.
  apply andb_true_iff in Hi as [Hi _].
  apply andb_true_iff in Hi as [Hi _]. apply negb_true_iff, Hi.
Qed.

(** The replace creates no closer that [.*?] could reach. *)
Lemma closable_replace_all (s : list N) :
  closable (closer r) (replace_all r s) = true ->
  closable (closer r) s = true.
Proof.
  destruct well_formed_spec as (_ & Hc & Hno & _ & _ & _ & _ & Hi & _).
  induction s as [|c s E IH|c s cap rest E IH] using (scan_ind r opener_nonempty);
    intros H.
  - exact H.
  - destruct (starts_with (closer r) (replace_all r (c :: s))) eqn:Es.
    + apply replace_all_prefix in Es as [Es _];
        [|apply tag_open_not_in, Hi].
      rewrite closable_cons, Es. reflexivity.
    + rewrite (replace_all_lit r opener_nonempty _ _ E) in H, Es.
      rewrite closable_cons, Es in H. simpl in H.
      apply andb_true_iff in H as [H1 H2].
      rewrite closable_cons, H1, (IH H2). apply orb_true_r.
  - apply exec_at_some in E as (-> & Hcap & _).
    rewrite app_assoc. apply closable_reach.
    rewrite no_lt_app, Hno, Hcap. reflexivity.
Qed.

(** After the replace the pattern matches nowhere, as long as no
    capture holds an opener. *)
Lemma any_match_replace_all (s : list N) :
  Forall (fun cap => includes (opener r) cap = false) (captures r s) ->
  any_match r (replace_all r s) = false.
Proof.
  destruct well_formed_spec
    as (_ & _ & _ & _ & _ & _ & Hoo & Hoc & Hco & Hcc).
  induction s as [|c s E IH|c s cap rest E IH] using (scan_ind r opener_nonempty);
    intros Hcaps.
  - reflexivity.
  - rewrite captures_lit in Hcaps by exact E. specialize (IH Hcaps).
    destruct (match_at r (replace_all r (c :: s))) eqn:Em.
    + exfalso. rewrite match_at_eq in Em.
      apply andb_true_iff in Em as [Em1 Em2].
      apply replace_all_prefix in Em1 as [Em1 Em3];
        [|apply tag_open_not_in, Hoo].
      rewrite Em3, skipn_app, skipn_all, Nat.sub_diag in Em2.
      simpl in Em2. apply closable_replace_all in Em2.
      assert (match_at r (c :: s) = true)
        by (rewrite match_at_eq, Em1, Em2; reflexivity).
      apply match_at_exec in E. congruence.
    + rewrite (replace_all_lit r opener_nonempty _ _ E) in Em |- *.
      simpl. rewrite Em, IH. reflexivity.
  - rewrite (captures_span _ _ _ _ E) in Hcaps.
    inversion Hcaps as [|? ? Hcap Hrest]; subst.
    specialize (IH Hrest).
    rewrite (replace_all_span r opener_nonempty _ _ _ _ E).
    rewrite any_match_skip.
    2:{ intros t1 t2 Et Hne. apply (inert_inside _ _ Hoo t1 t2 _ Et Hne). }
    rewrite any_match_skip.
    2:{ intros t1 t2 Et Hne. rewrite (inert_before _ _ Hco).
        destruct t2 as [|d t2]; [congruence|].
        apply includes_false_head.
        rewrite Et in Hcap. clear -Hcap.
        induction t1 as [|e t1 IHt]; [exact Hcap|].
        simpl app in Hcap. rewrite includes_cons in Hcap.
        apply orb_false_iff in Hcap as [_ Hcap]. auto. }
    rewrite any_match_skip; [exact IH|].
    intros t1 t2 Et Hne. apply (inert_inside _ _ Hco t1 t2 _ Et Hne).
Qed.

(** When opener and closer are the same marker the condition on the
    captures always holds: [.*?] stops at the first closer. *)
Lemma captures_clean (s : list N) :
  opener r = closer r ->
  Forall (fun cap => includes (opener r) cap = false) (captures r s).
Proof.
  intros Heq.
  induction s as [|c s E IH|c s cap rest E IH] using (scan_ind r opener_nonempty).
  - constructor.
  - rewrite captures_lit by exact E. exact IH.
  - rewrite (captures_span _ _ _ _ E). constructor; [|exact IH].
    apply exec_at_some in E as (_ & _ & Hmin).
    rewrite Heq. pose proof opener_nonempty as Hne0. clear -Hmin Hne0 Heq.
    assert (G : forall c2 c1, cap = c1 ++ c2 ->
                  includes (closer r) c2 = false).
    { induction c2 as [|d c2 IH]; intros c1 Hc.
      - simpl. rewrite starts_with_nil_r, orb_false_r.
        apply eqb_str_neq. congruence.
      - rewrite includes_cons. apply orb_false_iff. split.
        + destruct (starts_with (closer r) (d :: c2)) eqn:Es; [|reflexivity].
          rewrite <- (Hmin c1 (d :: c2) Hc) by discriminate.
          symmetry. apply starts_with_app_l, Es.
        + apply (IH (c1 ++ [d])). rewrite <- app_assoc. exact Hc. }
    apply (G cap []). reflexivity.
Qed.

End Own.

(* ------------------------------------------------------------------ *)
(** ** Line by line *)

Section Lines.

Variable r : rule.
Hypothesis Hwf : well_formed r = true.

Variable t : N.
Hypothesis Ht : is_line_terminator t = true.

Lemma terminator_not_in (m : list N) :
  no_line_terminator m = true -> mem t m = false.
Proof.
  induction m as [|a m IH]; intros H; [reflexivity|].
  simpl in H. apply andb_true_iff in H as [Ha H].
  change (mem t (a :: m)) with ((t =? a)%N || mem t m).
  rewrite (IH H), orb_false_r.
  apply N.eqb_neq. intros <-. rewrite Ht in Ha. discriminate.
Qed.

Lemma starts_with_line (m u s : list N) :
  no_line_terminator m = true ->
  starts_with m (u ++ t :: s) = starts_with m u.
Proof.
  intros H. exact (starts_with_blocked m t [] u s (terminator_not_in m H)).
Qed.

Lemma closable_line (C u s : list N) :
  C <> [] -> no_line_terminator C = true ->
  closable C (u ++ t :: s) = closable C u.
Proof.
  intros Hne Hn. induction u as [|c u IH].
  - simpl app. rewrite closable_cons, closable_nil by exact Hne.
    pose proof (starts_with_line C [] s Hn) as X. simpl app in X.
    rewrite X, Ht, starts_with_nil_r. apply eqb_str_neq in Hne.
    rewrite Hne. reflexivity.
  - simpl app. rewrite !closable_cons, IH.
    pose proof (starts_with_line C (c :: u) s Hn) as X. simpl app in X.
    rewrite X. reflexivity.
Qed.

Lemma exec_at_line_none (u s : list N) :
  exec_at r u = None -> exec_at r (u ++ t :: s) = None.
Proof.
  destruct (well_formed_spec r Hwf) as (Ho & Hc & Hno & Hnc & _).
  intros H. apply match_at_exec. apply match_at_exec in H.
  rewrite match_at_eq in *.
  rewrite (starts_with_line _ u s Hno).
  destruct (starts_with (opener r) u) eqn:E; [|reflexivity].
  simpl in *. rewrite skipn_app.
  replace (length (opener r) - length u) with 0
    by (apply starts_with_length in E; lia).
  change (skipn 0 (t :: s)) with (t :: s).
  rewrite closable_line by assumption. exact H.
Qed.

Lemma exec_at_line_some (u s cap rest : list N) :
  exec_at r u = Some (cap, rest) ->
  exec_at r (u ++ t :: s) = Some (cap, rest ++ t :: s).
Proof.
  intros H. apply exec_at_some in H as (-> & Hcap & Hmin).
  unfold exec_at. rewrite <- !app_assoc, starts_with_app.
  rewrite skipn_app, skipn_all, Nat.sub_diag. simpl.
  apply lazy_dot_then_app; [exact Hcap|].
  intros c1 c2 Hc Hne. rewrite <- (Hmin c1 c2 Hc Hne).
  rewrite !(app_assoc c2), !(app_assoc (c2 ++ closer r)).
  apply starts_with_long. rewrite !length_app. lia.
Qed.

(** A line terminator separates what the replace does before it from
    what it does after it. *)
Lemma replace_all_line (l s : list N) :
  replace_all r (l ++ t :: s) = replace_all r l ++ t :: replace_all r s.
Proof.
  pose proof (opener_nonempty r Hwf) as Ho.
  induction l as [|c l E IH|c l cap rest E IH] using (scan_ind r Ho).
  - simpl app. apply replace_all_lit; [exact Ho|].
    apply (exec_at_line_none [] s). unfold exec_at.
    rewrite starts_with_nil_r. apply eqb_str_neq in Ho. rewrite Ho.
    reflexivity.
  - simpl app. rewrite !replace_all_lit; try assumption.
    + simpl. f_equal. exact IH.
    + apply (exec_at_line_none (c :: l) s E).
  - rewrite (replace_all_span r Ho _ _ _ _ E).
    pose proof (exec_at_line_some (c :: l) s _ _ E) as E'.
    simpl app in E' |- *.
    rewrite (replace_all_span r Ho _ _ _ _ E'), IH.
    rewrite <- !app_assoc. reflexivity.
Qed.

End Lines.

(* ------------------------------------------------------------------ *)
(** ** The three rules *)

Lemma three_rules_well_formed :
  well_formed markRegex = true /\ well_formed superRegex = true
  /\ well_formed subRegex = true.
Proof. repeat split; vm_compute; reflexivity. Qed.

Lemma three_rules_foreign :
  foreign superRegex markRegex = true /\ foreign subRegex markRegex = true
  /\ foreign subRegex superRegex = true.
Proof. repeat split; vm_compute; reflexivity. Qed.

Lemma in_three_rules (r : rule) :
  In r [markRegex; superRegex; subRegex] -> well_formed r = true.
Proof.
  destruct three_rules_well_formed as (H1 & H2 & H3).
  intros [<-|[<-|[<-|[]]]]; assumption.
Qed.

(** The highlight pattern matches nowhere in the rewriter's result. *)
Lemma no_mark_left (S : list N) :
  any_match markRegex (rewrite_inline S) = false.
Proof.
  destruct three_rules_well_formed as (H1 & H2 & H3).
  destruct three_rules_foreign as (F1 & F2 & F3).
  unfold rewrite_inline, addSubScript, addSuperScript, addMarkTags.
  rewrite (any_match_foreign_replace _ _ F2 (opener_nonempty _ H3)).
  rewrite (any_match_foreign_replace _ _ F1 (opener_nonempty _ H2)).
  apply any_match_replace_all; [exact H1|].
  apply captures_clean; [exact H1|reflexivity].
Qed.

(** Nor does the superscript pattern. *)
Lemma no_super_left (S : list N) :
  any_match superRegex (rewrite_inline S) = false.
Proof.
  destruct three_rules_well_formed as (H1 & H2 & H3).
  destruct three_rules_foreign as (F1 & F2 & F3).
  unfold rewrite_inline, addSubScript, addSuperScript.
  rewrite (any_match_foreign_replace _ _ F3 (opener_nonempty _ H3)).
  apply any_match_replace_all; [exact H2|].
  apply captures_clean; [exact H2|reflexivity].
Qed.

(** The subscript pattern can: its opener differs from its closer, so
    a capture may hold an opener.  When none does, it matches nowhere. *)
Lemma no_sub_left (S : list N) :
  sub_nesting_free S = true ->
  any_match subRegex (rewrite_inline S) = false.
Proof.
  destruct three_rules_well_formed as (H1 & H2 & H3).
  intros H. unfold rewrite_inline, addSubScript.
  apply any_match_replace_all; [exact H3|].
  unfold sub_nesting_free in H. rewrite forallb_forall in H.
  apply List.Forall_forall. intros cap Hcap.
  specialize (H cap Hcap). apply negb_true_iff in H. exact H.
Qed.

Lemma captures_one_line (r : rule) (s : list N) :
  well_formed r = true ->
  Forall (fun cap => no_line_terminator cap = true) (captures r s).
Proof.
  intros Hwf. pose proof (opener_nonempty r Hwf) as Ho.
  induction s as [|c s E IH|c s cap rest E IH] using (scan_ind r Ho).
  - constructor.
  - rewrite (captures_lit r Hwf _ _ E). exact IH.
  - rewrite (captures_span r Hwf _ _ _ _ E). constructor; [|exact IH].
    apply exec_at_some in E as (_ & H & _). exact H.
Qed.

(* ------------------------------------------------------------------ *)
(** ** InlineMarkupRewriter: the stated properties *)

(** C9.  The three literal examples of the specification: a highlight,
    two superscripts in one string, and a subscript, each rewritten by
    the composed rewriter to the markup the specification gives. *)
Theorem literal_examples :
  rewrite_inline (jss "this is ==important== info")
  = jss "this is <mark>important</mark> info"
  /\ rewrite_inline (jss "E^2^ = mc^2^")
     = jss "E<sup class=" ++ dquote ++ jss "suptext" ++ dquote
       ++ jss ">2</sup> = mc<sup class=" ++ dquote ++ jss "suptext" ++ dquote
       ++ jss ">2</sup>"
  /\ rewrite_inline (jss "H_-2-_O")
     = jss "H<sub class=" ++ dquote ++ jss "subtext" ++ dquote
       ++ jss ">2</sub>O".
Proof. repeat split; vm_compute; reflexivity. Qed.

(** C7.  A string that contains none of the markers [==], [^], [_-],
    [-_] comes back from the composed rewriter as it went in; and on
    every input each of the three replaces cuts its subject into
    pieces, single code units outside the matches and matched spans,
    copies the former unchanged and only rewrites the latter, the
    output of one replace being the subject of the next. *)
Theorem identity_on_plain_text :
  (forall S : list N,
      includes (jss "==") S = false -> includes (jss "^") S = false ->
      includes (jss "_-") S = false -> includes (jss "-_") S = false ->
      rewrite_inline S = S)
  /\ (forall S : list N,
        exists p1 p2 p3 : list piece,
          flat_map (source markRegex) p1 = S
          /\ flat_map (render markRegex) p1 = flat_map (source superRegex) p2
          /\ flat_map (render superRegex) p2 = flat_map (source subRegex) p3
          /\ flat_map (render subRegex) p3 = rewrite_inline S)
  /\ (forall (r : rule) (c : N), render r (Lit c) = source r (Lit c)).
Proof.
  destruct three_rules_well_formed as (H1 & H2 & H3).
  split; [|split].
  - intros S Hm Hp Hs _.
    unfold rewrite_inline, addSubScript, addSuperScript, addMarkTags.
    rewrite (replace_all_no_opener markRegex (opener_nonempty _ H1) S Hm).
    rewrite (replace_all_no_opener superRegex (opener_nonempty _ H2) S Hp).
    apply (replace_all_no_opener subRegex (opener_nonempty _ H3) S Hs).
  - intros S.
    exists (scan markRegex S), (scan superRegex (addMarkTags S)),
      (scan subRegex (addSuperScript (addMarkTags S))).
    rewrite !scan_source by (apply opener_nonempty; assumption).
    repeat split.
  - reflexivity.
Qed.

Lemma identity_on_plain_text_witness :
  includes (jss "==") (jss "a = b - c_d") = false
  /\ includes (jss "^") (jss "a = b - c_d") = false
  /\ includes (jss "_-") (jss "a = b - c_d") = false
  /\ includes (jss "-_") (jss "a = b - c_d") = false
  /\ rewrite_inline (jss "a = b - c_d") = jss "a = b - c_d".
Proof.
  do 4 (split; [vm_compute; reflexivity|]).
  apply (proj1 identity_on_plain_text); vm_compute; reflexivity.
Defined.

(** C6, as stated, fails.  Read with the words of the specification
    (leftmost opener, next closer, shortest span, the odd marker left
    over) the three [^] of the string below pair first with second;
    the code leaves the first alone, because a line feed stands
    between it and the second, and pairs second with third. *)
Lemma pairing_across_lines_counterexample :
  addSuperScript (jss "^a" ++ [10%N] ++ jss "b^c^")
  = jss "^a" ++ [10%N] ++ jss "b" ++ tag_open superRegex ++ jss "c"
    ++ tag_close superRegex
  /\ pair_markers superRegex (jss "^a" ++ [10%N] ++ jss "b^c^")
     = tag_open superRegex ++ jss "a" ++ [10%N] ++ jss "b"
       ++ tag_close superRegex ++ jss "c^"
  /\ addSuperScript (jss "^a" ++ [10%N] ++ jss "b^c^")
     <> pair_markers superRegex (jss "^a" ++ [10%N] ++ jss "b^c^").
Proof.
  repeat split; try (vm_compute; reflexivity).
  intros H. vm_compute in H. discriminate H.
Qed.

(** C6, amended.  For each of the three rules matching is non-greedy
    and left-to-right within a line: on a subject without line
    terminator the replace is the pairing of the specification
    (leftmost opening marker, next closing marker, no overlap, a marker
    without partner left as it is); a line terminator is never part of
    a span, and the text before it is paired on its own; and
    [addSuperScript] leaves ["price: ^5 dollars"] unchanged. *)
Theorem pairing_within_lines :
  (forall r : rule, In r [markRegex; superRegex; subRegex] ->
     (forall s : list N,
         no_line_terminator s = true -> replace_all r s = pair_markers r s)
     /\ (forall (l : list N) (t : N) (s : list N),
           no_line_terminator l = true -> is_line_terminator t = true ->
           replace_all r (l ++ t :: s)
           = pair_markers r l ++ t :: replace_all r s)
     /\ (forall s : list N,
           Forall (fun cap => no_line_terminator cap = true) (captures r s)))
  /\ addSuperScript (jss "price: ^5 dollars") = jss "price: ^5 dollars".
Proof.
  split; [|vm_compute; reflexivity].
  intros r Hr. apply in_three_rules in Hr.
  pose proof (opener_nonempty r Hr) as Ho.
  split; [|split].
  - apply replace_all_pair_markers, Ho.
  - intros l t s Hl Ht. rewrite (replace_all_line r Hr t Ht).
    rewrite (replace_all_pair_markers r Ho l Hl). reflexivity.
  - intros s. apply captures_one_line, Hr.
Qed.

Lemma pairing_within_lines_witness :
  In superRegex [markRegex; superRegex; subRegex]
  /\ no_line_terminator (jss "a^b^c^d") = true
  /\ replace_all superRegex (jss "a^b^c^d")
     = pair_markers superRegex (jss "a^b^c^d").
Proof.
  assert (Hin : In superRegex [markRegex; superRegex; subRegex])
    by (simpl; auto).
  split; [exact Hin|]. split; [vm_compute; reflexivity|].
  apply (proj1 (proj1 pairing_within_lines superRegex Hin)).
  vm_compute; reflexivity.
Defined.

(** C4, as stated, fails.  The string below contains none of the three
    opening tags, yet rewriting it a second time changes it again: the
    first subscript span captures [a_-b], and the opener in it finds
    the closer left over after [c]. *)
Lemma idempotence_counterexample :
  includes (tag_open markRegex) (jss "_-a_-b-_c-_") = false
  /\ includes (tag_open superRegex) (jss "_-a_-b-_c-_") = false
  /\ includes (tag_open subRegex) (jss "_-a_-b-_c-_") = false
  /\ rewrite_inline (jss "_-a_-b-_c-_")
     = tag_open subRegex ++ jss "a_-b" ++ tag_close subRegex ++ jss "c-_"
  /\ rewrite_inline (rewrite_inline (jss "_-a_-b-_c-_"))
     <> rewrite_inline (jss "_-a_-b-_c-_").
Proof.
  repeat split; try (vm_compute; reflexivity).
  intros H. vm_compute in H. discriminate H.
Qed.

(** C4, amended.  After the composed rewriter the highlight and the
    superscript rule find nothing more to rewrite, whatever the
    string; and for every string in which no subscript span captures
    text containing the opening marker [_-] again, applying the
    composed rewriter twice gives the same as applying it once. *)
Theorem idempotent_without_nested_subscript (S : list N) :
  addMarkTags (rewrite_inline S) = rewrite_inline S
  /\ addSuperScript (rewrite_inline S) = rewrite_inline S
  /\ (sub_nesting_free S = true ->
      rewrite_inline (rewrite_inline S) = rewrite_inline S).
Proof.
  destruct three_rules_well_formed as (H1 & H2 & H3).
  assert (Hm : addMarkTags (rewrite_inline S) = rewrite_inline S).
  { apply replace_all_no_match; [apply opener_nonempty, H1|].
    apply no_mark_left. }
  assert (Hp : addSuperScript (rewrite_inline S) = rewrite_inline S).
  { apply replace_all_no_match; [apply opener_nonempty, H2|].
    apply no_super_left. }
  split; [exact Hm|]. split; [exact Hp|]. intros Hfree.
  unfold rewrite_inline at 1. rewrite Hm, Hp.
  apply replace_all_no_match; [apply opener_nonempty, H3|].
  apply no_sub_left, Hfree.
Qed.

Lemma idempotent_without_nested_subscript_witness :
  sub_nesting_free (jss "H_-2-_O ==x^2^== _-i-_") = true
  /\ rewrite_inline (rewrite_inline (jss "H_-2-_O ==x^2^== _-i-_"))
     = rewrite_inline (jss "H_-2-_O ==x^2^== _-i-_").
Proof.
  split; [vm_compute; reflexivity|].
  apply (proj2 (proj2 (idempotent_without_nested_subscript _))).
  vm_compute; reflexivity.
Defined.

(* ------------------------------------------------------------------ *)
(** ** TextNodeWalker: the stated properties *)

Section WalkerFacts.
Import Dom DomSpec.

Lemma dom_node_ind (P : node -> Prop) :
  (forall d, P (Text d)) -> (forall d, P (Comment d)) ->
  (forall tag cs, Forall P cs -> P (Element tag cs)) ->
  forall n, P n.
Proof.
  intros HT HC HE. fix IH 1. intros [d|d|tag cs]; [apply HT|apply HC|].
  apply HE. induction cs as [|c cs IHcs]; constructor; [apply IH|exact IHcs].
Qed.

Variable parse_fragment : list N -> option (list node).




End WalkerFacts.

(** C1 is a defect of the code.  A text node inside a code block is
    meant to be left alone, but the filter only looks at the immediate
    parent: below [PRE > CODE > SPAN] (the shape syntax highlighting
    gives a code block) the text [==x==] is collected and replaced by
    whatever the parser makes of [<mark>x</mark>]. *)
Theorem text_under_code_wrapper_is_rewritten
  (parse_fragment : list N -> option (list Dom.node)) :
  Dom.applyTextTransformationsToTextNodes parse_fragment
    (Dom.Element (jss "DIV")
       [Dom.Element (jss "PRE")
          [Dom.Element (jss "CODE")
             [Dom.Element (jss "SPAN") [Dom.Text (jss "==x==")]]]])
  = match parse_fragment (jss "<mark>x</mark>") with
    | Some fragment =>
        (Dom.Element (jss "DIV")
           [Dom.Element (jss "PRE")
              [Dom.Element (jss "CODE")
                 [Dom.Element (jss "SPAN") fragment]]],
         Dom.Normal)
    | None =>
        (Dom.Element (jss "DIV")
           [Dom.Element (jss "PRE")
              [Dom.Element (jss "CODE")
                 [Dom.Element (jss "SPAN") [Dom.Text (jss "==x==")]]]],
         Dom.Thrown)
    end.
Proof.
  cbv. destruct (parse_fragment _); [|reflexivity].
  repeat f_equal. apply app_nil_r.
Qed.

(** The filter does keep text whose immediate parent is [CODE] or
    [PRE] out of the list. *)
Lemma text_directly_under_code_not_collected (d : list N) :
  Dom.collect (jss "CODE") (Dom.Text d) = []
  /\ Dom.collect (jss "PRE") (Dom.Text d) = [].
Proof.
  unfold Dom.collect, Dom.acceptNode. split.
  - rewrite eqb_str_refl, orb_true_r. reflexivity.
  - rewrite eqb_str_refl, orb_true_r. reflexivity.
Qed.




(* ------------------------------------------------------------------ *)
(** ** TreeDecorators: the admonition pass *)

Section AdmonitionFacts.
Import Hast HastSpec.

Variable toLowerCase : list N -> list N.
Variable toUpperCase : list N -> list N.

Lemma height_children (n c : node) :
  In c (children n) -> height c < height n.
Proof.
  destruct n as [ty tg nm pr dv v cs]. simpl. intros H.
  assert (height c <= fold_right Nat.max 0 (map height cs)); [|lia].
  induction cs as [|d cs IH]; [destruct H|].
  simpl. destruct H as [->|H]; [lia|]. specialize (IH H). lia.
Qed.

Lemma height_positive (n : node) : 0 < height n.
Proof. destruct n. simpl. lia. Qed.

Lemma mapM_map {A B} (g : A -> outcome B) (h : A -> B) (l : list A) :
  (forall x, In x l -> g x = Done (h x)) -> mapM g l = Done (map h l).
Proof.
  induction l as [|x l IH]; intros H; [reflexivity|].
  simpl. rewrite (H x (or_introl eq_refl)). simpl.
  rewrite IH by (intros; apply H; simpl; auto). reflexivity.
Qed.

Lemma existsb_eqb_str_In (t : list N) (l : list (list N)) :
  existsb (eqb_str t) l = true <-> In t l.
Proof.
  rewrite existsb_exists. split.
  - intros (x & Hx & E). apply eqb_str_eq in E. subst. exact Hx.
  - intros H. exists t. split; [exact H|apply eqb_str_refl].
Qed.

(** Every recognized kind has its own icon entry. *)
Lemma recognized_icon (t : list N) :
  In t admonitionTypes ->
  exists icon, assoc t admonitionIcons = Some icon
               /\ titleIconClass t = VString icon.
Proof.
  intros H. unfold admonitionTypes in H. simpl in H.
  repeat (destruct H as [<-|H];
          [eexists; split; vm_compute; reflexivity|]).
  destruct H.
Qed.

Lemma skipn_1_tail (cs : list node) :
  skipn 1 cs = match cs with [] => [] | _ :: body => body end.
Proof. destruct cs; reflexivity. Qed.

Lemma visit_title (f : nat) (cs : list node) (t icon : list N) :
  visit (S (S f)) (admonition_callback toLowerCase toUpperCase)
        (titleNode toUpperCase cs t icon)
  = Done (titleNode toUpperCase cs t icon).
Proof. reflexivity. Qed.

(** With enough fuel the pass ends, and its result is [admonish]. *)
Lemma visit_admonish (fuel : nat) :
  forall n : node,
    2 * height n < fuel ->
    visit fuel (admonition_callback toLowerCase toUpperCase) n
    = Done (admonish toLowerCase toUpperCase n).
Proof.
  induction fuel as [fuel IH] using lt_wf_ind. intros n Hf.
  destruct fuel as [|f]; [lia|].
  assert (Hkids : forall f', f' < S f -> forall l : list node,
             (forall c, In c l -> 2 * height c < f') ->
             mapM (visit f' (admonition_callback toLowerCase toUpperCase)) l
             = Done (map (admonish toLowerCase toUpperCase) l)).
  { intros f' Hlt l Hl. apply mapM_map. intros c Hc. apply IH; auto. }
  destruct n as [ty tg nm pr dv v cs].
  cbn [visit]. unfold admonition_callback at 1.
  cbn [admonish]. unfold recognized. cbn [name type].
  destruct (is_type (Node ty tg nm pr dv v cs) "containerDirective"
            && existsb (eqb_str (toLowerCase nm)) admonitionTypes) eqn:E.
  - apply andb_true_iff in E as [E1 E2]. rewrite E1, E2.
    destruct (recognized_icon _ (proj1 (existsb_eqb_str_In _ _) E2))
      as (icon & _ & Hicon).
    rewrite Hicon. cbn [bind children].
    pose proof (height_positive (Node ty tg nm pr dv v cs)) as Hpos.
    destruct f as [|[|f]]; try lia.
    cbn [mapM]. rewrite visit_title. cbn [bind].
    cbn [visit]. unfold contentNode at 1, element at 1.
    unfold admonition_callback at 1. cbn [bind children].
    replace (is_type _ "containerDirective") with false by reflexivity.
    cbn [bind children].
    rewrite (Hkids (S f)); [| lia |].
    + cbn [bind]. rewrite skipn_1_tail. destruct cs; reflexivity.
    + intros c Hc.
      assert (In c cs) by (destruct cs; [destruct Hc|right; exact Hc]).
      pose proof (height_children (Node ty tg nm pr dv v cs) c H). lia.
  - assert (Ecb : admonition_callback toLowerCase toUpperCase
                    (Node ty tg nm pr dv v cs)
                  = Done (Node ty tg nm pr dv v cs)).
    { unfold admonition_callback. cbn [name].
      apply andb_false_iff in E as [E|E]; rewrite E; [reflexivity|].
      destruct (is_type _ _); reflexivity. }
    unfold admonition_callback in Ecb. cbn [name] in Ecb. rewrite Ecb.
    cbn [bind children]. rewrite (Hkids f); [reflexivity | lia |].
    intros c Hc.
    pose proof (height_children (Node ty tg nm pr dv v cs) c Hc). lia.
Qed.

Lemma rehypeAdmonitions_admonish (tree : node) :
  rehypeAdmonitions toLowerCase toUpperCase tree
  = Done (admonish toLowerCase toUpperCase tree).
Proof. unfold rehypeAdmonitions. apply visit_admonish. lia. Qed.

End AdmonitionFacts.

Section AdmonitionClaims.
Import Hast HastSpec.

Variable toLowerCase : list N -> list N.
Variable toUpperCase : list N -> list N.



End AdmonitionClaims.





(* ------------------------------------------------------------------ *)
(** ** TreeDecorators: the language-icon pass *)

Section LanguageIconFacts.
Import Hast.

Variable toLowerCase : list N -> list N.
Variable toUpperCase : list N -> list N.

Lemma assoc_nonempty (key v : list N) (tbl : list (list N * list N)) :
  Forall (fun kv => snd kv <> []) tbl -> assoc key tbl = Some v -> v <> [].
Proof.
  induction 1 as [|[k w] tbl Hw _ IH]; simpl; [discriminate|].
  destruct (eqb_str k key); [intros [= <-]; exact Hw|exact IH].
Qed.

Lemma languageIcons_nonempty :
  Forall (fun kv => snd kv <> []) languageIcons.
Proof.
  unfold languageIcons. apply Forall_map.
  repeat (constructor; [discriminate|]). constructor.
Qed.

(** Unless the language is the name of an inherited property, the
    lookup gives the language's own entry or else the default one. *)
Lemma icon_lookup (language : list N) :
  existsb (eqb_str language) object_prototype_keys = false ->
  js_or (get languageIcons language) (get languageIcons (jss "default"))
  = VString match assoc language languageIcons with
            | Some ic => ic
            | None => jss "fas fa-code"
            end.
Proof.
  intros H. unfold get at 1. rewrite H.
  destruct (assoc language languageIcons) as [ic|] eqn:E; [|reflexivity].
  pose proof (assoc_nonempty _ _ _ languageIcons_nonempty E) as Hne.
  destruct ic; [congruence|reflexivity].
Qed.

(** The callback on a [pre] whose [code] child carries a
    [language-]token, for a language that is not an inherited name:
    class [has-language] appended, [data-language] set, the icon
    element put in front of the children. *)
Lemma language_icon_added (n codeElement : node)
  (classes : list (list N)) (a : gmap (list N) (list N))
  (languageClass : list N) :
  is_type n "element" && is_tag n "pre" = true ->
  find (fun child => is_type child "element" && is_tag child "code")
       (children n) = Some codeElement ->
  props codeElement = Some (Properties (Some classes) a) ->
  find (starts_with (jss "language-")) classes = Some languageClass ->
  existsb (eqb_str (toLowerCase (remove_first (jss "language-") languageClass)))
          object_prototype_keys = false ->
  let language := toLowerCase (remove_first (jss "language-") languageClass) in
  let p0 := match props n with Some p => p | None => Properties None ∅ end in
  languageIcon_callback toLowerCase toUpperCase n
  = Done (Node (type n) (tagName n) (name n)
            (Some (Properties
                     (Some (match className p0 with Some l => l | None => [] end
                            ++ [jss "has-language"]))
                     (<[jss "data-language" := language]> (attrs p0))))
            (data_value n) (value n)
            (element "div" [jss "language-icon"] ∅
               [ element "i"
                   (split_space match assoc language languageIcons with
                                | Some ic => ic
                                | None => jss "fas fa-code"
                                end)
                   {[ jss "title" := toUpperCase language ]} [] ]
             :: children n)).
Proof.
  intros Hpre Hcode Hprops Hcls Hown language p0.
  unfold languageIcon_callback. rewrite Hpre, Hcode, Hprops, Hcls.
  assert (Hne : eqb_str languageClass [] = false).
  { apply find_some in Hcls as [_ Hs]. destruct languageClass;
      [discriminate Hs|reflexivity]. }
  rewrite Hne. fold language. rewrite (icon_lookup language Hown).
  reflexivity.
Qed.

(** Without a [language-]token the callback changes nothing. *)
Lemma no_language_token_unchanged (n codeElement : node)
  (classes : list (list N)) (a : gmap (list N) (list N)) :
  find (fun child => is_type child "element" && is_tag child "code")
       (children n) = Some codeElement ->
  props codeElement = Some (Properties (Some classes) a) ->
  find (starts_with (jss "language-")) classes = None ->
  languageIcon_callback toLowerCase toUpperCase n = Done n.
Proof.
  intros Hcode Hprops Hcls. unfold languageIcon_callback.
  rewrite Hcode, Hprops, Hcls. destruct (_ && _); reflexivity.
Qed.

End LanguageIconFacts.

(** C3 is a defect of the code.  The icon is looked up with
    [languageIcons[language] || languageIcons.default], and a property
    read on an object literal also finds what the object inherits.
    For a code block tagged [constructor] the read gives the inherited
    function, which is truthy, so the default is not taken, and
    [iconClass.split] is not a function: the pass ends with a
    [TypeError] instead of adding the default icon. *)
Theorem inherited_name_breaks_icon_lookup
  (toLowerCase toUpperCase : list N -> list N) :
  toLowerCase (jss "constructor") = jss "constructor" ->
  Hast.get Hast.languageIcons (jss "constructor") = Hast.VObject
  /\ Hast.rehypeCodeLanguageIcons toLowerCase toUpperCase
       (Hast.element "pre" [] ∅
          [Hast.element "code" [jss "language-constructor"] ∅
             [Hast.text (jss "x")]])
     = Hast.TypeError.
Proof.
  intros Hl. split; [vm_compute; reflexivity|].
  unfold Hast.rehypeCodeLanguageIcons.
  change (Hast.height _ + 3) with 6. cbn [Hast.visit].
  assert (E : Hast.languageIcon_callback toLowerCase toUpperCase
                (Hast.element "pre" [] ∅
                   [Hast.element "code" [jss "language-constructor"] ∅
                      [Hast.text (jss "x")]])
              = Hast.TypeError).
  { vm_compute in Hl. vm_compute. rewrite Hl. reflexivity. }
  rewrite E. reflexivity.
Qed.

Lemma inherited_name_breaks_icon_lookup_witness :
  HastSpec.ascii_lower (jss "constructor") = jss "constructor"
  /\ Hast.rehypeCodeLanguageIcons HastSpec.ascii_lower HastSpec.ascii_upper
       (Hast.element "pre" [] ∅
          [Hast.element "code" [jss "language-constructor"] ∅
             [Hast.text (jss "x")]])
     = Hast.TypeError.
Proof.
  split; [reflexivity|].
  exact (proj2 (inherited_name_breaks_icon_lookup HastSpec.ascii_lower
                  HastSpec.ascii_upper eq_refl)).
Defined.

(* ------------------------------------------------------------------ *)
(** ** PipelineOrchestrator: the activation gate *)

(** C8.  On a page whose path ends in none of [.md], [.markdown],
    [.mdown] the pipeline does nothing: [renderMarkdown] returns the
    page as it found it, whatever the rest of the pipeline would do,
    and [initializeTextTransformations] schedules nothing. *)
Theorem non_markdown_page_untouched
  (D : Type) (render_pipeline : Page.page D -> Page.page D)
  (doc : Page.page D) (loading : bool) :
  ends_with (jss ".md") (Page.pathname doc) = false ->
  ends_with (jss ".markdown") (Page.pathname doc) = false ->
  ends_with (jss ".mdown") (Page.pathname doc) = false ->
  fst (Page.renderMarkdown D render_pipeline doc) = doc
  /\ Page.initializeTextTransformations D doc loading = [].
Proof.
  intros H1 H2 H3. unfold Page.renderMarkdown,
    Page.initializeTextTransformations, Page.isMarkdownFile.
  rewrite H1, H2, H3. simpl.
  destruct (Page.pre_textContent doc) as [[|c t]|]; split; reflexivity.
Qed.

Lemma non_markdown_page_untouched_witness :
  ends_with (jss ".md") (jss "/notes/readme.txt") = false
  /\ ends_with (jss ".markdown") (jss "/notes/readme.txt") = false
  /\ ends_with (jss ".mdown") (jss "/notes/readme.txt") = false
  /\ fst (Page.renderMarkdown nat (fun _ => Page.MkPage [] None 1)
            (Page.MkPage (jss "/notes/readme.txt") (Some (jss "# title")) 0))
     = Page.MkPage (jss "/notes/readme.txt") (Some (jss "# title")) 0.
Proof.
  do 3 (split; [reflexivity|]).
  exact (proj1 (non_markdown_page_untouched nat
                  (fun _ => Page.MkPage [] None 1)
                  (Page.MkPage (jss "/notes/readme.txt")
                     (Some (jss "# title")) 0)
                  false eq_refl eq_refl eq_refl)).
Defined.

(* ================================================================== *)
(** * Further properties *)

(* ------------------------------------------------------------------ *)
(** ** The machine of a rule *)

Lemma skipn_prefix (a b : list N) : skipn (length a) (a ++ b) = b.
Proof. induction a as [|c a IH]; [reflexivity|exact IH]. Qed.

Section MachineFacts.
Import Machine.

Variable r : rule.
Hypothesis Hwf : well_formed r = true.

Lemma marker_nonempty (st : mode) : marker r st <> [].
Proof.
  destruct (well_formed_spec r Hwf) as (Ho & Hc & _).
  destruct st; assumption.
Qed.

Lemma fires_starts (st : mode) (s : list N) :
  fires r st s = true -> starts_with (marker r st) s = true.
Proof.
  destruct st; simpl; [|auto]. rewrite match_at_eq.
  intros H. apply andb_true_iff in H as [H _]. exact H.
Qed.

Lemma run_skip (st : mode) (k : nat) (s : list N) :
  run r st k s = run r st 0 (skipn k s).
Proof.
  revert k; induction s as [|c s IH]; intros [|k]; try reflexivity.
  simpl run at 1. rewrite IH. reflexivity.
Qed.

Lemma run_copy (st : mode) (c : N) (s : list N) :
  fires r st (c :: s) = false -> run r st 0 (c :: s) = c :: run r st 0 s.
Proof. intros H. simpl. rewrite H. reflexivity. Qed.

Lemma run_fire (st : mode) (s : list N) :
  fires r st s = true ->
  run r st 0 s
  = tag r st ++ run r (flip st) 0 (skipn (length (marker r st)) s).
Proof.
  intros H. pose proof (marker_nonempty st) as Hm.
  pose proof (fires_starts st s H) as Hs.
  destruct s as [|c s].
  - rewrite starts_with_nil_r in Hs. apply eqb_str_eq in Hs. contradiction.
  - simpl run. rewrite H, run_skip. f_equal. f_equal.
    destruct (marker r st); [contradiction|].
    simpl. rewrite Nat.sub_0_r. reflexivity.
Qed.

(** A stretch inside which neither marker begins is copied. *)
Lemma run_inert (st : mode) (x w : list N) :
  inert x (opener r) = true -> inert x (closer r) = true ->
  run r st 0 (x ++ w) = x ++ run r st 0 w.
Proof.
  intros Ho Hc.
  assert (G : forall x2 x1, x = x1 ++ x2 ->
                run r st 0 (x2 ++ w) = x2 ++ run r st 0 w).
  { induction x2 as [|c x2 IH]; intros x1 Hx; [reflexivity|].
    simpl app. rewrite run_copy.
    - f_equal. apply (IH (x1 ++ [c])). rewrite <- app_assoc. exact Hx.
    - destruct st; unfold fires.
      + rewrite match_at_eq.
        change (c :: x2 ++ w) with ((c :: x2) ++ w).
        rewrite (inert_inside x _ Ho x1 (c :: x2) w Hx) by discriminate.
        reflexivity.
      + change (c :: x2 ++ w) with ((c :: x2) ++ w).
        apply (inert_inside x _ Hc x1 (c :: x2) w Hx). discriminate. }
  apply (G x []). reflexivity.
Qed.

Lemma run_inside (cap rest : list N) :
  (forall c1 c2, cap = c1 ++ c2 -> c2 <> [] ->
     starts_with (closer r) (c2 ++ closer r ++ rest) = false) ->
  run r Inside 0 (cap ++ closer r ++ rest)
  = cap ++ tag_close r ++ run r Outside 0 rest.
Proof.
  induction cap as [|c cap IH]; intros Hmin.
  - simpl app. rewrite run_fire by (simpl; apply starts_with_app).
    simpl. rewrite skipn_prefix. reflexivity.
  - simpl app. rewrite run_copy.
    + f_equal. apply IH. intros c1 c2 E Hne.
      apply (Hmin (c :: c1) c2); [simpl; congruence|exact Hne].
    + simpl. apply (Hmin [] (c :: cap) eq_refl). discriminate.
Qed.

(** The machine started outside a span is the replace. *)
Lemma replace_all_run (s : list N) :
  replace_all r s = run r Outside 0 s.
Proof.
  pose proof (opener_nonempty r Hwf) as Ho.
  induction s as [|c s E IH|c s cap rest E IH] using (scan_ind r Ho).
  - reflexivity.
  - rewrite (replace_all_lit r Ho _ _ E), IH.
    symmetry. apply run_copy. simpl. apply match_at_exec, E.
  - rewrite (replace_all_span r Ho _ _ _ _ E), IH.
    assert (F : fires r Outside (c :: s) = true).
    { simpl. unfold match_at. rewrite E. reflexivity. }
    rewrite (run_fire _ _ F). simpl tag. simpl marker. simpl flip.
    apply exec_at_some in E as (-> & _ & Hmin).
    rewrite skipn_prefix.
    rewrite (run_inside _ _ Hmin). rewrite <- ?app_assoc. reflexivity.
Qed.

Lemma match_at_across (x a b : list N) :
  inert x (opener r) = true -> inert x (closer r) = true ->
  no_line_terminator x = true ->
  match_at r (a ++ x ++ b)
  = starts_with (opener r) a
    && (closable (closer r) (skipn (length (opener r)) a)
        || (no_line_terminator (skipn (length (opener r)) a)
            && closable (closer r) b)).
Proof.
  intros Ho Hc Hn. rewrite match_at_eq, (inert_before x _ Ho).
  destruct (starts_with (opener r) a) eqn:E; [|reflexivity].
  rewrite skipn_app.
  replace (length (opener r) - length a) with 0
    by (apply starts_with_length in E; lia).
  change (skipn 0 (x ++ b)) with (x ++ b).
  rewrite closable_across by assumption. reflexivity.
Qed.

Lemma fires_swap (st : mode) (x y a b : list N) :
  inert x (opener r) = true -> inert x (closer r) = true ->
  no_line_terminator x = true ->
  inert y (opener r) = true -> inert y (closer r) = true ->
  no_line_terminator y = true ->
  fires r st (a ++ x ++ b) = fires r st (a ++ y ++ b).
Proof.
  intros. destruct st; simpl.
  - rewrite !match_at_across by assumption. reflexivity.
  - rewrite !inert_before by assumption. reflexivity.
Qed.

End MachineFacts.

Section MachineForeign.
Import Machine.

Variables r r' : rule.
Hypothesis Hwf : well_formed r = true.
Hypothesis Hwf' : well_formed r' = true.
Hypothesis Hforeign : foreign r' r = true.

Lemma foreign_marker_tag (st' : mode) :
  (inert (marker r' st') (opener r) = true
   /\ inert (marker r' st') (closer r) = true
   /\ no_line_terminator (marker r' st') = true)
  /\ (inert (tag r' st') (opener r) = true
      /\ inert (tag r' st') (closer r) = true
      /\ no_line_terminator (tag r' st') = true).
Proof.
  destruct st'; split; apply (foreign_spec r r' Hforeign); simpl; auto 6.
Qed.

(** Whether [r] fires somewhere is not changed by a pass of the
    machine of [r'] over the text behind. *)
Lemma fires_foreign (s : list N) :
  forall (st' : mode) (a : list N) (st : mode),
    fires r st (a ++ run r' st' 0 s) = fires r st (a ++ s).
Proof.
  remember (length s) as n eqn:Hn. revert s Hn.
  induction n as [n IH] using lt_wf_ind. intros [|c s] Hn st' a st;
    [reflexivity|].
  destruct (fires r' st' (c :: s)) eqn:F.
  - rewrite (run_fire r' Hwf' _ _ F).
    pose proof (fires_starts r' _ _ F) as Hs.
    apply starts_with_split in Hs.
    destruct (foreign_marker_tag st') as ((M1 & M2 & M3) & (T1 & T2 & T3)).
    assert (Hlen : length (skipn (length (marker r' st')) (c :: s)) < n).
    { rewrite Hn, length_skipn.
      pose proof (marker_nonempty r' Hwf' st').
      destruct (marker r' st'); [contradiction|simpl; lia]. }
    rewrite (app_assoc a), (IH _ Hlen _ eq_refl), <- app_assoc.
    rewrite Hs at 2.
    apply fires_swap; assumption.
  - rewrite (run_copy r' _ _ _ F).
    change (a ++ c :: run r' st' 0 s) with (a ++ [c] ++ run r' st' 0 s).
    change (a ++ c :: s) with (a ++ [c] ++ s).
    rewrite !app_assoc. apply (IH (length s)); [simpl in Hn; lia|reflexivity].
Qed.

Hypothesis Hforeign' : foreign r r' = true.

(** Where [r] fires, the two machines can go in either order, if they
    can on what is left. *)
Lemma commute_where_fires (st st' : mode) (s : list N) :
  fires r st s = true ->
  run r (flip st) 0
      (run r' st' 0 (skipn (length (marker r st)) s))
  = run r' st' 0
        (run r (flip st) 0 (skipn (length (marker r st)) s)) ->
  run r st 0 (run r' st' 0 s) = run r' st' 0 (run r st 0 s).
Proof.
  intros F IH.
  pose proof (fires_starts r _ _ F) as Hs. apply starts_with_split in Hs.
  set (s2 := skipn (length (marker r st)) s) in *.
  assert (Hfw : well_formed r = true) by exact Hwf.
  destruct (foreign_spec r' r Hforeign' (marker r st))
    as (M1 & M2 & _); [destruct st; simpl; auto|].
  destruct (foreign_spec r' r Hforeign' (tag r st))
    as (T1 & T2 & _); [destruct st; simpl; auto 6|].
  rewrite (run_fire r Hwf _ _ F). fold s2.
  rewrite (run_inert r' st' _ _ T1 T2).
  rewrite Hs at 1. rewrite (run_inert r' st' _ _ M1 M2).
  assert (F' : fires r st (marker r st ++ run r' st' 0 s2) = true).
  { rewrite fires_foreign, <- Hs. exact F. }
  rewrite (run_fire r Hwf _ _ F').
  rewrite skipn_prefix, IH. reflexivity.
Qed.

End MachineForeign.

Section Commute.
Import Machine.

Variables r r' : rule.
Hypothesis Hwf : well_formed r = true.
Hypothesis Hwf' : well_formed r' = true.
Hypothesis Hforeign : foreign r' r = true.
Hypothesis Hforeign' : foreign r r' = true.

Lemma run_commute (s : list N) :
  forall st st' : mode,
    run r st 0 (run r' st' 0 s) = run r' st' 0 (run r st 0 s).
Proof.
  remember (length s) as n eqn:Hn. revert s Hn.
  induction n as [n IH] using lt_wf_ind. intros s Hn st st'.
  destruct s as [|c s]; [reflexivity|].
  assert (Hshort : forall m : list N, m <> [] ->
            length (skipn (length m) (c :: s)) < n).
  { intros m Hm. rewrite Hn, length_skipn.
    destruct m; [contradiction|simpl; lia]. }
  destruct (fires r st (c :: s)) eqn:F.
  { apply (commute_where_fires r r' Hwf Hwf' Hforeign Hforeign'); [exact F|].
    apply (IH _ (Hshort _ (marker_nonempty r Hwf st)) _ eq_refl). }
  destruct (fires r' st' (c :: s)) eqn:F'.
  { symmetry.
    apply (commute_where_fires r' r Hwf' Hwf Hforeign' Hforeign); [exact F'|].
    symmetry.
    apply (IH _ (Hshort _ (marker_nonempty r' Hwf' st')) _ eq_refl). }
  rewrite (run_copy r' _ _ _ F'), (run_copy r _ _ _ F).
  rewrite run_copy, run_copy.
  - f_equal. apply (IH (length s)); [simpl in Hn; lia|reflexivity].
  - pose proof (fires_foreign r' r Hwf Hforeign' s st [c] st') as X.
    simpl app in X. rewrite X. exact F'.
  - pose proof (fires_foreign r r' Hwf' Hforeign s st' [c] st) as X.
    simpl app in X. rewrite X. exact F.
Qed.

(** Two replaces whose markers and tags keep out of each other's way
    can be applied in either order. *)
Lemma replace_all_commute (s : list N) :
  replace_all r (replace_all r' s) = replace_all r' (replace_all r s).
Proof.
  rewrite !(replace_all_run r Hwf), !(replace_all_run r' Hwf').
  apply run_commute.
Qed.

End Commute.

(* ------------------------------------------------------------------ *)
(** ** InlineMarkupRewriter: order, lines, length *)

Lemma three_rules_foreign_back :
  foreign markRegex superRegex = true /\ foreign markRegex subRegex = true
  /\ foreign superRegex subRegex = true.
Proof. repeat split; vm_compute; reflexivity. Qed.

(** X1.  The three replaces commute: highlight, superscript and
    subscript can be applied in any of the six orders, the result is
    the one of the order the code uses. *)
Theorem rewrites_commute (s : list N) :
  addMarkTags (addSuperScript s) = addSuperScript (addMarkTags s)
  /\ addMarkTags (addSubScript s) = addSubScript (addMarkTags s)
  /\ addSuperScript (addSubScript s) = addSubScript (addSuperScript s)
  /\ addSubScript (addMarkTags (addSuperScript s)) = rewrite_inline s
  /\ addSuperScript (addSubScript (addMarkTags s)) = rewrite_inline s
  /\ addSuperScript (addMarkTags (addSubScript s)) = rewrite_inline s
  /\ addMarkTags (addSubScript (addSuperScript s)) = rewrite_inline s
  /\ addMarkTags (addSuperScript (addSubScript s)) = rewrite_inline s.
Proof.
  destruct three_rules_well_formed as (W1 & W2 & W3).
  destruct three_rules_foreign as (F1 & F2 & F3).
  destruct three_rules_foreign_back as (B1 & B2 & B3).
  assert (Cms : forall t, addMarkTags (addSuperScript t)
                          = addSuperScript (addMarkTags t))
    by (intros t; apply (replace_all_commute _ _ W1 W2 F1 B1)).
  assert (Cmb : forall t, addMarkTags (addSubScript t)
                          = addSubScript (addMarkTags t))
    by (intros t; apply (replace_all_commute _ _ W1 W3 F2 B2)).
  assert (Csb : forall t, addSuperScript (addSubScript t)
                          = addSubScript (addSuperScript t))
    by (intros t; apply (replace_all_commute _ _ W2 W3 F3 B3)).
  unfold rewrite_inline. repeat split.
  - apply Cms.
  - apply Cmb.
  - apply Csb.
  - rewrite Cms. reflexivity.
  - apply Csb.
  - rewrite Cmb. apply Csb.
  - rewrite Cmb, Cms. reflexivity.
  - rewrite Csb, Cmb, Cms. reflexivity.
Qed.

Section Measures.

Variable r : rule.
Hypothesis Hwf : well_formed r = true.

Lemma filter_terminators_none (x : list N) :
  no_line_terminator x = true -> List.filter is_line_terminator x = [].
Proof.
  induction x as [|c x IH]; intros H; [reflexivity|].
  simpl in H. apply andb_true_iff in H as [Hc H].
  apply negb_true_iff in Hc. simpl. rewrite Hc. apply IH, H.
Qed.

(** A replace neither adds nor removes a line terminator. *)
Lemma replace_all_terminators (s : list N) :
  List.filter is_line_terminator (replace_all r s)
  = List.filter is_line_terminator s.
Proof.
  destruct (well_formed_spec r Hwf)
    as (Ho & _ & Hno & Hnc & Hnt & Hnu & _).
  induction s as [|c s E IH|c s cap rest E IH] using (scan_ind r Ho).
  - reflexivity.
  - rewrite (replace_all_lit r Ho _ _ E). simpl. rewrite IH. reflexivity.
  - rewrite (replace_all_span r Ho _ _ _ _ E).
    apply exec_at_some in E as (-> & Hcap & _).
    rewrite !List.filter_app, IH.
    rewrite (filter_terminators_none _ Hno), (filter_terminators_none _ Hnc).
    rewrite (filter_terminators_none _ Hnt), (filter_terminators_none _ Hnu).
    reflexivity.
Qed.

(** Each span trades the two markers for the two tags. *)
Lemma replace_all_length (s : list N) :
  length (replace_all r s)
  + length (captures r s) * (length (opener r) + length (closer r))
  = length s
    + length (captures r s) * (length (tag_open r) + length (tag_close r)).
Proof.
  pose proof (opener_nonempty r Hwf) as Ho.
  induction s as [|c s E IH|c s cap rest E IH] using (scan_ind r Ho).
  - reflexivity.
  - rewrite (replace_all_lit r Ho _ _ E), (captures_lit r Hwf _ _ E).
    simpl. lia.
  - rewrite (replace_all_span r Ho _ _ _ _ E).
    rewrite (captures_span r Hwf _ _ _ _ E).
    apply exec_at_some in E as (-> & _).
    rewrite !length_app. simpl length. lia.
Qed.

End Measures.

(** X2.  The rewriter never joins or splits lines: the line
    terminators of its result are those of its input, in the same
    order, for each of the three replaces and for their composition. *)
Theorem line_terminators_kept (s : list N) :
  List.filter is_line_terminator (addMarkTags s) = List.filter is_line_terminator s
  /\ List.filter is_line_terminator (addSuperScript s)
     = List.filter is_line_terminator s
  /\ List.filter is_line_terminator (addSubScript s)
     = List.filter is_line_terminator s
  /\ List.filter is_line_terminator (rewrite_inline s)
     = List.filter is_line_terminator s.
Proof.
  destruct three_rules_well_formed as (W1 & W2 & W3).
  unfold rewrite_inline, addSubScript, addSuperScript, addMarkTags.
  rewrite !replace_all_terminators by assumption. repeat split.
Qed.

(** X3.  Every matched span lengthens the string by a fixed amount:
    9 code units for a highlight, 25 for a superscript, 23 for a
    subscript; so a replace never shortens its subject, and it keeps
    the length only when it matches nothing. *)
Theorem length_grows_per_span (s : list N) :
  length (addMarkTags s) = length s + 9 * length (captures markRegex s)
  /\ length (addSuperScript s)
     = length s + 25 * length (captures superRegex s)
  /\ length (addSubScript s) = length s + 23 * length (captures subRegex s).
Proof.
  destruct three_rules_well_formed as (W1 & W2 & W3).
  pose proof (replace_all_length markRegex W1 s) as L1.
  pose proof (replace_all_length superRegex W2 s) as L2.
  pose proof (replace_all_length subRegex W3 s) as L3.
  change (length (opener markRegex) + length (closer markRegex)) with 4 in L1.
  change (length (tag_open markRegex) + length (tag_close markRegex))
    with 13 in L1.
  change (length (opener superRegex) + length (closer superRegex))
    with 2 in L2.
  change (length (tag_open superRegex) + length (tag_close superRegex))
    with 27 in L2.
  change (length (opener subRegex) + length (closer subRegex)) with 4 in L3.
  change (length (tag_open subRegex) + length (tag_close subRegex))
    with 27 in L3.
  unfold addMarkTags, addSuperScript, addSubScript. lia.
Qed.

(* ------------------------------------------------------------------ *)
(** ** [ellipses] *)

Section EllipsesFacts.
Import Plugins.

Lemma ellipses_cons (c : N) (s1 : list N) :
  ellipses (c :: s1)
  = if starts_with (jss "...") (c :: s1)
    then 8230%N :: ellipses (skipn 2 s1)
    else c :: ellipses s1.
Proof.
  change (jss "...") with [46%N; 46%N; 46%N].
  destruct s1 as [|c2 [|c3 rest]]; cbn [ellipses starts_with skipn].
  - rewrite andb_false_r. reflexivity.
  - rewrite !andb_false_r. reflexivity.
  - rewrite andb_true_r, (N.eqb_sym 46 c), (N.eqb_sym 46 c2),
      (N.eqb_sym 46 c3), andb_assoc.
    reflexivity.
Qed.

Lemma ellipses_head_dot (t : list N) :
  starts_with [46%N] (ellipses t) = true -> starts_with [46%N] t = true.
Proof.
  destruct t as [|x t]; [discriminate|]. rewrite ellipses_cons.
  destruct (starts_with (jss "...") (x :: t)); [discriminate|].
  simpl. auto.
Qed.

Lemma ellipses_head_two_dots (t : list N) :
  starts_with [46%N; 46%N] (ellipses t) = true ->
  starts_with [46%N; 46%N] t = true.
Proof.
  destruct t as [|x t]; [discriminate|]. rewrite ellipses_cons.
  destruct (starts_with (jss "...") (x :: t)); [discriminate|].
  simpl. intros H. apply andb_true_iff in H as [Hx H].
  rewrite Hx. apply ellipses_head_dot in H. exact H.
Qed.

Lemma ellipses_no_triple (s : list N) :
  includes (jss "...") (ellipses s) = false.
Proof.
  remember (length s) as n eqn:Hn. revert s Hn.
  induction n as [n IH] using lt_wf_ind. intros [|c s1] Hn; [reflexivity|].
  rewrite ellipses_cons.
  destruct (starts_with (jss "...") (c :: s1)) eqn:E.
  - rewrite includes_cons. apply orb_false_iff. split; [reflexivity|].
    apply (IH (length (skipn 2 s1))); [|reflexivity].
    rewrite Hn, length_skipn. simpl. lia.
  - rewrite includes_cons. apply orb_false_iff. split.
    + destruct (starts_with (jss "...") (c :: ellipses s1)) eqn:E2;
        [|reflexivity].
      change (jss "...") with [46%N; 46%N; 46%N] in *. simpl in E, E2.
      apply andb_true_iff in E2 as [Hc E2].
      apply ellipses_head_two_dots in E2. simpl in E2.
      rewrite Hc, E2 in E. discriminate.
    + apply (IH (length s1)); [simpl in Hn; lia|reflexivity].
Qed.

Lemma ellipses_identity (s : list N) :
  includes (jss "...") s = false -> ellipses s = s.
Proof.
  induction s as [|c s IH]; intros H; [reflexivity|].
  rewrite includes_cons in H. apply orb_false_iff in H as [H1 H2].
  rewrite ellipses_cons, H1, (IH H2). reflexivity.
Qed.

End EllipsesFacts.

(** X4.  [ellipses] leaves no three full stops in a row; it returns a
    string without three full stops in a row as it is; applying it
    twice is applying it once. *)
Theorem ellipses_normalizes :
  (forall s : list N, includes (jss "...") (Plugins.ellipses s) = false)
  /\ (forall s : list N,
        includes (jss "...") s = false -> Plugins.ellipses s = s)
  /\ (forall s : list N,
        Plugins.ellipses (Plugins.ellipses s) = Plugins.ellipses s).
Proof.
  split; [exact ellipses_no_triple|]. split; [exact ellipses_identity|].
  intros s. apply ellipses_identity, ellipses_no_triple.
Qed.

Lemma ellipses_normalizes_witness :
  includes (jss "...") (jss "a..b.c") = false
  /\ Plugins.ellipses (jss "a..b.c") = jss "a..b.c".
Proof.
  split; [reflexivity|].
  apply (proj1 (proj2 ellipses_normalizes)). reflexivity.
Defined.

(* ------------------------------------------------------------------ *)
(** ** The page title *)

Section TitleFacts.
Import Plugins.

Lemma split_on_nonempty (sep : N) (s : list N) : split_on sep s <> [].
Proof.
  destruct s as [|c s]; simpl; [discriminate|].
  destruct (c =? sep)%N; [discriminate|].
  destruct (split_on sep s); discriminate.
Qed.

Lemma split_on_plain (sep : N) (s : list N) :
  mem sep s = false -> split_on sep s = [s].
Proof.
  induction s as [|c s IH]; intros H; [reflexivity|].
  apply mem_cons_false in H as [Hc H]. simpl.
  apply N.eqb_neq in Hc. rewrite Hc, (IH H). reflexivity.
Qed.

Lemma split_on_app (sep : N) (a b : list N) :
  split_on sep (a ++ sep :: b) = split_on sep a ++ split_on sep b.
Proof.
  induction a as [|c a IH]; simpl.
  - rewrite N.eqb_refl. reflexivity.
  - rewrite IH. destruct (c =? sep)%N; [reflexivity|].
    pose proof (split_on_nonempty sep a).
    destruct (split_on sep a); [contradiction|reflexivity].
Qed.

Lemma last_app_nonempty {A} (l1 l2 : list A) (d : A) :
  l2 <> [] -> List.last (l1 ++ l2) d = List.last l2 d.
Proof.
  intros Hne. induction l1 as [|x l1 IH]; [reflexivity|].
  simpl app. destruct (l1 ++ l2) eqn:E.
  - apply app_eq_nil in E as [_ E]. contradiction.
  - rewrite <- IH. reflexivity.
Qed.

Lemma last_split_on (sep : N) (a b : list N) :
  List.last (split_on sep (a ++ sep :: b)) []
  = List.last (split_on sep b) [].
Proof.
  rewrite split_on_app. apply last_app_nonempty, split_on_nonempty.
Qed.

End TitleFacts.

(** X5.  The page title is never empty: a non-empty [document.title]
    is taken as it is; without one, a path ending in a file name gives
    that file name, and a path ending in a slash gives
    ["Markdown Preview"]. *)
Theorem page_title_never_empty :
  (forall documentTitle pathname : list N,
      Plugins.pageTitle documentTitle pathname <> [])
  /\ (forall documentTitle pathname : list N,
        documentTitle <> [] ->
        Plugins.pageTitle documentTitle pathname = documentTitle)
  /\ (forall dir name : list N,
        name <> [] -> mem 47 name = false ->
        Plugins.pageTitle [] (dir ++ 47%N :: name) = name)
  /\ (forall dir : list N,
        Plugins.pageTitle [] (dir ++ [47%N]) = jss "Markdown Preview").
Proof.
  split; [|split; [|split]].
  - intros t p. unfold Plugins.pageTitle. destruct t; [|discriminate].
    destruct (List.last _ _); intros H; vm_compute in H; discriminate H.
  - intros t p H. destruct t; [contradiction|reflexivity].
  - intros dir name Hne Hm. unfold Plugins.pageTitle.
    rewrite last_split_on, (split_on_plain _ _ Hm). simpl.
    destruct name; [contradiction|reflexivity].
  - intros dir. unfold Plugins.pageTitle. rewrite last_split_on.
    reflexivity.
Qed.

Lemma page_title_never_empty_witness :
  jss "notes.md" <> [] /\ mem 47 (jss "notes.md") = false
  /\ Plugins.pageTitle [] (jss "/home/me" ++ 47%N :: jss "notes.md")
     = jss "notes.md".
Proof.
  assert (H1 : jss "notes.md" <> []) by discriminate.
  assert (H2 : mem 47 (jss "notes.md") = false) by reflexivity.
  split; [exact H1|]. split; [exact H2|].
  exact (proj1 (proj2 (proj2 page_title_never_empty)) _ _ H1 H2).
Defined.

(** X6.  [injectTextTransformationStyles] is idempotent: after it an
    element with the style id exists; a second call, with whatever
    style text, changes nothing; the call keeps every child of [head]
    and every id elsewhere, and adds at most one child. *)
Theorem style_injection_idempotent
  (css css' : list N) (doc : Plugins.styled) :
  Plugins.getElementById
    (Plugins.injectTextTransformationStyles css doc) Plugins.styleId = true
  /\ Plugins.injectTextTransformationStyles css'
       (Plugins.injectTextTransformationStyles css doc)
     = Plugins.injectTextTransformationStyles css doc
  /\ Plugins.other_ids (Plugins.injectTextTransformationStyles css doc)
     = Plugins.other_ids doc
  /\ exists added,
       Plugins.head (Plugins.injectTextTransformationStyles css doc)
       = Plugins.head doc ++ added
       /\ length added <= 1.
Proof.
  assert (H : Plugins.getElementById
                (Plugins.injectTextTransformationStyles css doc)
                Plugins.styleId = true).
  { unfold Plugins.injectTextTransformationStyles.
    destruct (Plugins.getElementById doc Plugins.styleId) eqn:E; [exact E|].
    unfold Plugins.getElementById. simpl Plugins.head.
    rewrite existsb_app. cbn [existsb fst]. rewrite eqb_str_refl.
    rewrite orb_true_r. reflexivity. }
  split; [exact H|]. split; [|split].
  - unfold Plugins.injectTextTransformationStyles at 1. rewrite H.
    reflexivity.
  - unfold Plugins.injectTextTransformationStyles.
    destruct (Plugins.getElementById doc Plugins.styleId); reflexivity.
  - unfold Plugins.injectTextTransformationStyles.
    destruct (Plugins.getElementById doc Plugins.styleId).
    + exists []. rewrite app_nil_r. split; [reflexivity|simpl; lia].
    + eexists. split; [reflexivity|simpl; lia].
Qed.




(* ------------------------------------------------------------------ *)
(** ** TextNodeWalker and the copy buttons *)

Section WalkerMore.
Import Dom DomSpec CopyButtons.

Variable parse_fragment : list N -> option (list node).

Lemma forEach_keep (textNodes : list (list N)) :
  (forall d, In d textNodes -> rewrite_inline d = d) ->
  forEach_textNode parse_fragment textNodes
  = (map (fun _ => Keep) textNodes, Normal).
Proof.
  induction textNodes as [|d l IH]; intros H; [reflexivity|].
  simpl. rewrite (H d (or_introl eq_refl)), eqb_str_refl.
  rewrite IH by (intros; apply H; simpl; auto). reflexivity.
Qed.

Lemma commit_keep (n : node) :
  forall (parentTag : list N) (acts : list action),
    Forall (eq Keep) acts ->
    exists acts', commit parentTag acts n = ([n], acts')
                  /\ Forall (eq Keep) acts'.
Proof.
  induction n as [d|d|tag cs IH] using dom_node_ind; intros parentTag acts Hk.
  - simpl. destruct (acceptNode parentTag d); [|eauto].
    destruct Hk as [|a acts <- Hk]; eauto.
  - simpl. eauto.
  - simpl.
    match goal with |- context [?f cs acts] =>
      assert (G : exists acts', f cs acts = (cs, acts')
                                /\ Forall (eq Keep) acts') end.
    { revert acts Hk. induction IH as [|c cs Hc _ IHcs]; intros acts Hk;
        [eauto|].
      destruct (Hc tag acts Hk) as (a1 & E1 & K1). rewrite E1.
      destruct (IHcs a1 K1) as (a2 & E2 & K2). rewrite E2. eauto. }
    destruct G as (acts' & E & K). rewrite E. eauto.
Qed.

Lemma keep_all (l : list (list N)) :
  Forall (eq Keep) (map (fun _ : list N => Keep) l).
Proof. induction l; constructor; auto. Qed.

Variable button : node.
Hypothesis button_no_text : forall tag, collect tag button = [].


Lemma collect_addCopyButtons (n : node) :
  forall tag, collect tag (addCopyButtons button n) = collect tag n.
Proof.
  induction n as [d|d|tag0 cs IH] using dom_node_ind; intros tag;
    try reflexivity.
  simpl. induction IH as [|c cs Hc _ IHcs]; [reflexivity|].
  simpl. rewrite flat_map_app, IHcs.
  destruct (is_pre c); simpl; rewrite ?button_no_text, Hc, app_nil_r;
    reflexivity.
Qed.

End WalkerMore.

Section ButtonCount.
Import Dom CopyButtons.

Variable button : node.


Lemma children_addCopyButtons (cs : list node) :
  length (flat_map (fun c => if is_pre c
                             then [button; addCopyButtons button c]
                             else [addCopyButtons button c]) cs)
  = length cs + length (List.filter is_pre cs).
Proof.
  induction cs as [|c cs IH]; [reflexivity|].
  simpl. rewrite length_app, IH. destruct (is_pre c); simpl; lia.
Qed.

End ButtonCount.

(** X8.  A document in which the rewriter changes none of the
    collected text nodes comes back from the walker as it was, the
    call completes, and the fragment parser has no say in it. *)
Theorem untouched_without_markup
  (parse_fragment : list N -> option (list Dom.node)) (root : Dom.node) :
  (forall d, In d (Dom.collect [] root) -> rewrite_inline d = d) ->
  Dom.applyTextTransformationsToTextNodes parse_fragment root
  = (root, Dom.Normal).
Proof.
  intros H. destruct root as [d|d|tag cs]; try reflexivity.
  unfold Dom.applyTextTransformationsToTextNodes.
  destruct (Dom.excluded_root tag); [reflexivity|].
  change (flat_map (Dom.collect tag) cs)
    with (Dom.collect [] (Dom.Element tag cs)).
  rewrite (forEach_keep parse_fragment _ H).
  destruct (commit_keep (Dom.Element tag cs) [] _
              (keep_all (Dom.collect [] (Dom.Element tag cs))))
    as (acts' & E & _).
  rewrite E. reflexivity.
Qed.

Lemma untouched_without_markup_witness :
  (forall d,
      In d (Dom.collect []
              (Dom.Element (jss "DIV")
                 [Dom.Element (jss "P") [Dom.Text (jss "2 = 2, a_b")];
                  Dom.Element (jss "PRE") [Dom.Text (jss "==x==")]])) ->
      rewrite_inline d = d)
  /\ Dom.applyTextTransformationsToTextNodes (fun _ => None)
       (Dom.Element (jss "DIV")
          [Dom.Element (jss "P") [Dom.Text (jss "2 = 2, a_b")];
           Dom.Element (jss "PRE") [Dom.Text (jss "==x==")]])
     = (Dom.Element (jss "DIV")
          [Dom.Element (jss "P") [Dom.Text (jss "2 = 2, a_b")];
           Dom.Element (jss "PRE") [Dom.Text (jss "==x==")]],
        Dom.Normal).
Proof.
  assert (H : forall d,
      In d (Dom.collect []
              (Dom.Element (jss "DIV")
                 [Dom.Element (jss "P") [Dom.Text (jss "2 = 2, a_b")];
                  Dom.Element (jss "PRE") [Dom.Text (jss "==x==")]])) ->
      rewrite_inline d = d).
  { intros d [<-|[]]. vm_compute. reflexivity. }
  split; [exact H|].
  exact (untouched_without_markup (fun _ => None) _ H).
Defined.



(** X10.  [addCopyButtons] of [core/copyCode.js] puts one button
    before every [pre] among the children of an element, whether it
    holds code or not; and when the button holds no text the walker
    would take, the walker collects the same text nodes with and
    without the buttons. *)
Theorem copy_button_before_each_pre
  (button : Dom.node) (tag : list N) (cs : list Dom.node) :
  (exists cs',
      CopyButtons.addCopyButtons button (Dom.Element tag cs)
      = Dom.Element tag cs'
      /\ length cs'
         = length cs + length (List.filter CopyButtons.is_pre cs))
  /\ ((forall tag', Dom.collect tag' button = []) ->
      forall tag',
        Dom.collect tag'
          (CopyButtons.addCopyButtons button (Dom.Element tag cs))
        = Dom.collect tag' (Dom.Element tag cs)).
Proof.
  split.
  - eexists. split; [reflexivity|]. apply children_addCopyButtons.
  - intros H. apply collect_addCopyButtons, H.
Qed.

Lemma copy_button_before_each_pre_witness :
  (forall tag',
      Dom.collect tag' (Dom.Element (jss "BUTTON") []) = [])
  /\ Dom.collect (jss "BODY")
       (CopyButtons.addCopyButtons (Dom.Element (jss "BUTTON") [])
          (Dom.Element (jss "DIV")
             [Dom.Element (jss "PRE") [Dom.Text (jss "x")];
              Dom.Element (jss "P") [Dom.Text (jss "y")]]))
     = [jss "y"].
Proof.
  assert (H : forall tag',
      Dom.collect tag' (Dom.Element (jss "BUTTON") []) = [])
    by reflexivity.
  split; [exact H|].
  exact (eq_trans
           (proj2 (copy_button_before_each_pre _ (jss "DIV") _) H
              (jss "BODY"))
           eq_refl).
Defined.

(* ------------------------------------------------------------------ *)
(** ** TreeDecorators: what the passes leave alone, and running them
       again *)

Section VisitFacts.
Import Hast HastSpec HastFacts.

Lemma hast_node_ind (P : node -> Prop) :
  (forall ty tg nm pr dv v cs,
      Forall P cs -> P (Node ty tg nm pr dv v cs)) ->
  forall n, P n.
Proof.
  intros H. fix IH 1. intros [ty tg nm pr dv v cs]. apply H.
  induction cs as [|c cs IHcs]; constructor; [apply IH|exact IHcs].
Qed.

Lemma every_node_eq (p : node -> bool) (n : node) :
  every_node p n = p n && forallb (every_node p) (children n).
Proof. destruct n. reflexivity. Qed.

Lemma set_children_same (n : node) : set_children n (children n) = n.
Proof. destruct n. reflexivity. Qed.

(** A callback that leaves every node of the tree alone leaves the
    tree alone. *)
Lemma visit_unchanged (callback : node -> outcome node)
  (p : node -> bool) :
  (forall m, p m = true -> callback m = Done m) ->
  forall (fuel : nat) (n : node),
    every_node p n = true -> height n <= fuel ->
    visit fuel callback n = Done n.
Proof.
  intros Hp. induction fuel as [|f IH]; intros n He Hf.
  - pose proof (height_positive n). lia.
  - rewrite every_node_eq in He. apply andb_true_iff in He as [He1 He2].
    cbn [visit]. rewrite (Hp n He1). cbn [bind].
    rewrite (mapM_map _ (fun c => c)).
    + cbn [bind]. rewrite map_id. rewrite set_children_same. reflexivity.
    + intros c Hc. apply IH.
      * rewrite forallb_forall in He2. apply He2, Hc.
      * pose proof (height_children n c Hc). lia.
Qed.

Variable toLowerCase : list N -> list N.
Variable toUpperCase : list N -> list N.

Lemma admonish_element (t : string) (classes : list (list N))
  (extra : gmap (list N) (list N)) (cs : list node) :
  admonish toLowerCase toUpperCase (element t classes extra cs)
  = element t classes extra (map (admonish toLowerCase toUpperCase) cs).
Proof. reflexivity. Qed.

Lemma admonish_text (v : list N) :
  admonish toLowerCase toUpperCase (text v) = text v.
Proof. reflexivity. Qed.

(** Decorating a decorated tree changes nothing. *)
Lemma admonish_idempotent (n : node) :
  admonish toLowerCase toUpperCase (admonish toLowerCase toUpperCase n)
  = admonish toLowerCase toUpperCase n.
Proof.
  induction n as [ty tg nm pr dv v cs IH] using hast_node_ind.
  assert (G : forall l, Forall (fun c =>
                admonish toLowerCase toUpperCase
                  (admonish toLowerCase toUpperCase c)
                = admonish toLowerCase toUpperCase c) l ->
              map (admonish toLowerCase toUpperCase)
                  (map (admonish toLowerCase toUpperCase) l)
              = map (admonish toLowerCase toUpperCase) l).
  { induction 1 as [|c l Hc _ IHl]; [reflexivity|].
    simpl. rewrite Hc, IHl. reflexivity. }
  assert (Hsame : forall cs',
    recognized toLowerCase (Node ty tg nm pr dv v cs')
    = recognized toLowerCase (Node ty tg nm pr dv v cs)) by reflexivity.
  cbn [admonish].
  destruct (recognized toLowerCase (Node ty tg nm pr dv v cs)) eqn:R.
  - destruct (titleIconClass (toLowerCase nm)) as [icon| |] eqn:Ti.
    + change (admonish toLowerCase toUpperCase
                (Node (jss "element") (Some (jss "div")) nm
                   (Some (Properties
                      (Some [jss "admonition";
                             jss "admonition-" ++ toLowerCase nm]) ∅))
                   dv v
                   [titleNode toUpperCase cs (toLowerCase nm) icon;
                    element "div" [jss "admonition-content"] ∅
                      match cs with
                      | [] => []
                      | _ :: body =>
                          map (admonish toLowerCase toUpperCase) body
                      end]))
        with (Node (jss "element") (Some (jss "div")) nm
                (Some (Properties
                   (Some [jss "admonition";
                          jss "admonition-" ++ toLowerCase nm]) ∅))
                dv v
                [titleNode toUpperCase cs (toLowerCase nm) icon;
                 element "div" [jss "admonition-content"] ∅
                   (map (admonish toLowerCase toUpperCase)
                      match cs with
                      | [] => []
                      | _ :: body =>
                          map (admonish toLowerCase toUpperCase) body
                      end)]).
      do 3 f_equal. destruct cs as [|c cs]; [reflexivity|].
      inversion IH; subst. f_equal. apply G. assumption.
    + cbn [admonish]. rewrite Hsame, Ti, (G cs IH). reflexivity.
    + cbn [admonish]. rewrite Hsame, Ti, (G cs IH). reflexivity.
  - cbn [admonish]. rewrite Hsame, (G cs IH). reflexivity.
Qed.

End VisitFacts.

(** X11.  A pass changes nothing where it has nothing to decorate: a
    tree without [pre] element comes back from the language-icon pass
    as it was, a tree without container directive from the admonition
    pass, and both passes complete. *)
Theorem passes_leave_other_trees_alone
  (toLowerCase toUpperCase : list N -> list N) (tree : Hast.node) :
  (HastFacts.every_node
     (fun m => negb (Hast.is_type m "element" && Hast.is_tag m "pre"))
     tree = true ->
   Hast.rehypeCodeLanguageIcons toLowerCase toUpperCase tree
   = Hast.Done tree)
  /\ (HastFacts.every_node
        (fun m => negb (Hast.is_type m "containerDirective")) tree = true ->
      Hast.rehypeAdmonitions toLowerCase toUpperCase tree = Hast.Done tree).
Proof.
  split; intros H.
  - unfold Hast.rehypeCodeLanguageIcons.
    apply (visit_unchanged _ _) with (2 := H); [|lia].
    intros m Hm. apply negb_true_iff in Hm.
    unfold Hast.languageIcon_callback. rewrite Hm. reflexivity.
  - unfold Hast.rehypeAdmonitions.
    apply (visit_unchanged _ _) with (2 := H); [|lia].
    intros m Hm. apply negb_true_iff in Hm.
    unfold Hast.admonition_callback. rewrite Hm. reflexivity.
Qed.

Lemma passes_leave_other_trees_alone_witness :
  HastFacts.every_node
    (fun m => negb (Hast.is_type m "element" && Hast.is_tag m "pre"))
    (Hast.element "p" [] ∅ [Hast.text (jss "==x==")]) = true
  /\ Hast.rehypeCodeLanguageIcons HastSpec.ascii_lower HastSpec.ascii_upper
       (Hast.element "p" [] ∅ [Hast.text (jss "==x==")])
     = Hast.Done (Hast.element "p" [] ∅ [Hast.text (jss "==x==")]).
Proof.
  split; [reflexivity|].
  exact (proj1 (passes_leave_other_trees_alone HastSpec.ascii_lower
                  HastSpec.ascii_upper
                  (Hast.element "p" [] ∅ [Hast.text (jss "==x==")]))
           eq_refl).
Defined.

(** X12.  The admonition pass always completes, whatever the tree and
    whatever the case conversions (no [TypeError]: every recognized
    kind has its icon entry), and it is idempotent: run on its own
    result it returns that result. *)
Theorem admonition_pass_idempotent
  (toLowerCase toUpperCase : list N -> list N) (tree : Hast.node) :
  exists result,
    Hast.rehypeAdmonitions toLowerCase toUpperCase tree = Hast.Done result
    /\ Hast.rehypeAdmonitions toLowerCase toUpperCase result
       = Hast.Done result.
Proof.
  exists (HastSpec.admonish toLowerCase toUpperCase tree).
  rewrite !rehypeAdmonitions_admonish, admonish_idempotent. split; reflexivity.
Qed.

(** X13.  The language-icon callback is not idempotent: applied again
    to a [pre] it has decorated, it finds the same [code] child behind
    the icon, appends [has-language] a second time and puts a second
    icon in front. *)
Theorem language_icon_added_again
  (toLowerCase toUpperCase : list N -> list N)
  (n codeElement : Hast.node) (classes : list (list N))
  (a : gmap (list N) (list N)) (languageClass : list N) :
  Hast.is_type n "element" && Hast.is_tag n "pre" = true ->
  find (fun child => Hast.is_type child "element"
                     && Hast.is_tag child "code")
       (Hast.children n) = Some codeElement ->
  Hast.props codeElement = Some (Hast.Properties (Some classes) a) ->
  find (starts_with (jss "language-")) classes = Some languageClass ->
  existsb (eqb_str (toLowerCase
                      (Hast.remove_first (jss "language-") languageClass)))
          Hast.object_prototype_keys = false ->
  exists once twice icon p1 p2 l0,
    Hast.languageIcon_callback toLowerCase toUpperCase n = Hast.Done once
    /\ Hast.languageIcon_callback toLowerCase toUpperCase once
       = Hast.Done twice
    /\ l0 = match Hast.props n with
            | Some p => match Hast.className p with
                        | Some l => l
                        | None => []
                        end
            | None => []
            end
    /\ Hast.props once = Some p1
    /\ Hast.className p1 = Some (l0 ++ [jss "has-language"])
    /\ Hast.children once = icon :: Hast.children n
    /\ Hast.props twice = Some p2
    /\ Hast.className p2
       = Some ((l0 ++ [jss "has-language"]) ++ [jss "has-language"])
    /\ Hast.children twice = icon :: icon :: Hast.children n.
Proof.
  intros Hpre Hcode Hprops Hcls Hown.
  pose proof (language_icon_added toLowerCase toUpperCase n codeElement
                classes a languageClass Hpre Hcode Hprops Hcls Hown) as E1.
  cbv zeta in E1.
  match type of E1 with _ = Hast.Done ?x => set (once := x) in * end.
  assert (Hpre1 : Hast.is_type once "element" && Hast.is_tag once "pre"
                  = true) by (destruct n; exact Hpre).
  assert (Hcode1 : find (fun child => Hast.is_type child "element"
                                      && Hast.is_tag child "code")
                        (Hast.children once) = Some codeElement)
    by exact Hcode.
  pose proof (language_icon_added toLowerCase toUpperCase once codeElement
                classes a languageClass Hpre1 Hcode1 Hprops Hcls Hown) as E2.
  cbv zeta in E2.
  match type of E2 with _ = Hast.Done ?x => set (twice := x) in * end.
  exists once, twice. do 4 eexists.
  split; [exact E1|]. split; [exact E2|].
  split; [reflexivity|]. split; [reflexivity|].
  split; [destruct (Hast.props n) as [[[l|] ?]|]; reflexivity|].
  split; [reflexivity|]. split; [reflexivity|].
  split; [destruct (Hast.props n) as [[[l|] ?]|]; reflexivity|].
  reflexivity.
Qed.

Lemma language_icon_added_again_witness :
  exists once twice,
    Hast.languageIcon_callback HastSpec.ascii_lower HastSpec.ascii_upper
      (Hast.element "pre" [] ∅
         [Hast.element "code" [jss "language-Python"] ∅
            [Hast.text (jss "x")]])
    = Hast.Done once
    /\ Hast.languageIcon_callback HastSpec.ascii_lower HastSpec.ascii_upper
         once = Hast.Done twice
    /\ length (Hast.children twice) = 3.
Proof.
  destruct (language_icon_added_again HastSpec.ascii_lower
              HastSpec.ascii_upper
              (Hast.element "pre" [] ∅
                 [Hast.element "code" [jss "language-Python"] ∅
                    [Hast.text (jss "x")]])
              (Hast.element "code" [jss "language-Python"] ∅
                 [Hast.text (jss "x")])
              [jss "language-Python"] ∅ (jss "language-Python")
              eq_refl eq_refl eq_refl eq_refl eq_refl)
    as (once & twice & icon & p1 & p2 & l0 & E1 & E2 & _ & _ & _ & _ & _
        & _ & E3).
  exists once, twice. split; [exact E1|]. split; [exact E2|].
  rewrite E3. reflexivity.
Defined.
